(** * Tic-Tac-Toe engine of [script.js]: shallow embedding and verification

    The game logic of [src/script.js] (state object, [makeMove], [checkWin],
    [newGame], [undoMove], [getEasyMove], [getBestMove], [minimax],
    [checkWinOnBoard]) is embedded as Rocq functions over an explicit
    [state] record.  The JavaScript array holding the board is a list of
    cells updated by index; the in-place mutation performed by the search
    is modelled by threading the board through [minimax] and returning it. *)

From Stdlib Require Import List Bool Arith ZArith QArith Qround Sorted Lia.
From Stdlib Require String DecimalString.
Import ListNotations.

Close Scope Q_scope.

(** ** Data model *)

Module Grid.

Inductive Player := X | O.

(** A slot of the JavaScript array [state.board]: [Null] is the value
    [null] written by [Array(9).fill(null)], [Mark p] is the string ['X']
    or ['O'], and [Hole] is a slot that was never assigned (it reads as
    [undefined], and [every]/[map]/[filter] skip it).  Holes only arise
    when a write lands beyond the end of the array. *)
Inductive Cell := Hole | Null | Mark (p : Player).

Definition Board := list Cell.

Definition player_eqb (p q : Player) : bool :=
  match p, q with
  | X, X | O, O => true
  | _, _ => false
  end.

Definition cell_eqb (c d : Cell) : bool :=
  match c, d with
  | Hole, Hole | Null, Null => true
  | Mark p, Mark q => player_eqb p q
  | _, _ => false
  end.

(** [player === 'X' ? 'O' : 'X'] *)
Definition opponent (p : Player) : Player :=
  match p with X => O | O => X end.

(** [board[index]]: reading past the end gives [undefined], like a hole. *)
Definition get (b : Board) (index : nat) : Cell := nth index b Hole.

(** [board[index] = v]: JavaScript extends the array when [index] is past
    the end, leaving holes in between. *)
Fixpoint store (index : nat) (v : Cell) (b : Board) : Board :=
  match index, b with
  | 0, [] => [v]
  | 0, _ :: t => v :: t
  | S i, [] => Hole :: store i v []
  | S i, c :: t => c :: store i v t
  end.

(** Truthiness of a slot value: [null] and [undefined] are falsy, the
    strings ['X'] and ['O'] are truthy. *)
Definition truthy (c : Cell) : bool :=
  match c with Mark _ => true | _ => false end.

(** [board[index] === player] *)
Definition holds (b : Board) (p : Player) (index : nat) : bool :=
  cell_eqb (get b index) (Mark p).

(** [Array(9).fill(null)] *)
Definition emptyBoard : Board := repeat Null 9.

Definition winPatterns : list (list nat) :=
  [ [0; 1; 2]; [3; 4; 5]; [6; 7; 8];
    [0; 3; 6]; [1; 4; 7]; [2; 5; 8];
    [0; 4; 8]; [2; 4; 6] ].

(** [checkWinOnBoard(board, player)] *)
Definition checkWinOnBoard (b : Board) (p : Player) : bool :=
  existsb (fun combination => forallb (holds b p) combination) winPatterns.

(** [board.map((val, i) => val === null ? i : null).filter(val => val !== null)]:
    the indices of the [null] slots, in ascending order.  [from] is the
    index of the head of the list. *)
Fixpoint emptyCellsFrom (from : nat) (b : Board) : list nat :=
  match b with
  | [] => []
  | Null :: t => from :: emptyCellsFrom (S from) t
  | _ :: t => emptyCellsFrom (S from) t
  end.

Definition emptyCellsOf (b : Board) : list nat := emptyCellsFrom 0 b.

(** [board.every(cell => cell)]: [every] skips holes. *)
Definition everyCell (b : Board) : bool :=
  forallb (fun c => match c with Null => false | _ => true end) b.

End Grid.

(** ** Numbers used by the search: the scores and the two infinities *)

Module Search.
Import Grid.

Inductive num := NegInf | Fin (z : Z) | PosInf.

Definition num_leb (a b : num) : bool :=
  match a, b with
  | NegInf, _ => true
  | _, PosInf => true
  | Fin x, Fin y => (x <=? y)%Z
  | _, _ => false
  end.

(** [a >= b] *)
Definition num_geb (a b : num) : bool := num_leb b a.
(** [a > b] *)
Definition num_gtb (a b : num) : bool := negb (num_leb a b).
(** [a < b] *)
Definition num_ltb (a b : num) : bool := negb (num_leb b a).
(** [Math.max(a, b)] and [Math.min(a, b)] *)
Definition num_max (a b : num) : num := if num_leb a b then b else a.
Definition num_min (a b : num) : num := if num_leb a b then a else b.

(** ** The search *)

(** The objects built by [minimax]: [{ score }] at a terminal board and
    [{ index, score }] for an explored move. *)
Record move := mkMove { index : option nat; score : Z }.

Section Search.

(** The recursive call, at one unit of fuel less. *)
Variable rec : Board -> Player -> num -> num -> option (move * Board).

(** The [for] loop of [minimax] over [emptyCells], from position [i] on:
    [cells] are the entries not yet visited.  Returns the array [moves]
    and the board as the loop leaves it. *)
Fixpoint explore (p : Player) (cells : list nat) (currentBoard : Board)
         (alpha beta : num) (moves : list move)
  : option (list move * Board) :=
  match cells with
  | [] => Some (moves, currentBoard)
  | c :: rest =>
      let b1 := store c (Mark p) currentBoard in
      match rec b1 (opponent p) alpha beta with
      | None => None
      | Some (result, b2) =>
          let alpha' :=
            match p with O => num_max alpha (Fin (score result)) | X => alpha end in
          let beta' :=
            match p with O => beta | X => num_min beta (Fin (score result)) end in
          let b3 := store c Null b2 in
          let moves' := moves ++ [mkMove (Some c) (score result)] in
          if num_geb alpha' beta' then Some (moves', b3)
          else explore p rest b3 alpha' beta' moves'
      end
  end.

End Search.

(** The two selection scans at the end of [minimax]: [bestMove] is the
    position in [moves] of the first entry that strictly improves on
    every earlier one.  [i] is the loop counter. *)
Fixpoint scan (p : Player) (moves : list move) (i : nat)
         (bestScore : num) (bestMove : option nat) : option nat :=
  match moves with
  | [] => bestMove
  | m :: rest =>
      let improves :=
        match p with
        | O => num_gtb (Fin (score m)) bestScore
        | X => num_ltb (Fin (score m)) bestScore
        end in
      if improves then scan p rest (S i) (Fin (score m)) (Some i)
      else scan p rest (S i) bestScore bestMove
  end.

Definition selectBest (p : Player) (moves : list move) : option nat :=
  scan p moves 0 (match p with O => NegInf | X => PosInf end) None.

(** [minimax(currentBoard, player, alpha, beta)].  The recursion is on
    [fuel]; [None] stands for a call that yields no object (fuel
    exhausted, or [moves[bestMove]] undefined).  The board is returned
    next to the result because the function writes into the caller's
    array. *)
Fixpoint minimax (fuel : nat) (currentBoard : Board) (p : Player)
         (alpha beta : num) : option (move * Board) :=
  match fuel with
  | 0 => None
  | S fuel' =>
      let emptyCells := emptyCellsOf currentBoard in
      if checkWinOnBoard currentBoard X then Some (mkMove None (-10)%Z, currentBoard)
      else if checkWinOnBoard currentBoard O then Some (mkMove None 10%Z, currentBoard)
      else if length emptyCells =? 0 then Some (mkMove None 0%Z, currentBoard)
      else
        match explore (minimax fuel') p emptyCells currentBoard alpha beta [] with
        | None => None
        | Some (moves, b') =>
            match selectBest p moves with
            | None => None
            | Some bestMove =>
                match nth_error moves bestMove with
                | None => None
                | Some m => Some (m, b')
                end
            end
        end
  end.

End Search.

(** ** The game state and its operations *)

Module Engine.
Import Grid.

Inductive Mode := twoPlayers | vsComputer.
Inductive Difficulty := easy | unbeatable.

Definition mode_eqb (m n : Mode) : bool :=
  match m, n with
  | twoPlayers, twoPlayers | vsComputer, vsComputer => true
  | _, _ => false
  end.

Definition difficulty_eqb (d e : Difficulty) : bool :=
  match d, e with
  | easy, easy | unbeatable, unbeatable => true
  | _, _ => false
  end.

(** [state.scores]: the counters are JavaScript numbers that only ever
    grow by one from zero; they are modelled as integers. *)
Record Scores := mkScores { scoreX : Z; scoreO : Z; scoreDraw : Z }.

(** An entry [{ index, player }] of [state.moveHistory]. *)
Record Move := mkEntry { index : nat; player : Player }.

(** The [state] object.  The DOM (popup, status panel, buttons) is not
    part of the model. *)
Record State := mkState {
  board : Board;
  currentPlayer : Player;
  mode : Mode;
  difficulty : Difficulty;
  gameOver : bool;
  scores : Scores;
  moveHistory : list Move
}.

Definition initial : State :=
  {| board := emptyBoard; currentPlayer := X; mode := twoPlayers;
     difficulty := easy; gameOver := false;
     scores := mkScores 0 0 0; moveHistory := [] |}.

(** Field assignments. *)
Definition setBoard (b : Board) (st : State) : State :=
  mkState b (currentPlayer st) (mode st) (difficulty st) (gameOver st)
          (scores st) (moveHistory st).
Definition setCurrentPlayer (p : Player) (st : State) : State :=
  mkState (board st) p (mode st) (difficulty st) (gameOver st)
          (scores st) (moveHistory st).
Definition setMode (m : Mode) (st : State) : State :=
  mkState (board st) (currentPlayer st) m (difficulty st) (gameOver st)
          (scores st) (moveHistory st).
Definition setDifficulty (d : Difficulty) (st : State) : State :=
  mkState (board st) (currentPlayer st) (mode st) d (gameOver st)
          (scores st) (moveHistory st).
Definition setGameOver (g : bool) (st : State) : State :=
  mkState (board st) (currentPlayer st) (mode st) (difficulty st) g
          (scores st) (moveHistory st).
Definition setScores (s : Scores) (st : State) : State :=
  mkState (board st) (currentPlayer st) (mode st) (difficulty st) (gameOver st)
          s (moveHistory st).
Definition setMoveHistory (h : list Move) (st : State) : State :=
  mkState (board st) (currentPlayer st) (mode st) (difficulty st) (gameOver st)
          (scores st) h.

(** [state.scores[player]++] and [state.scores.Draw++] *)
Definition incrPlayer (p : Player) (s : Scores) : Scores :=
  match p with
  | X => mkScores (scoreX s + 1) (scoreO s) (scoreDraw s)
  | O => mkScores (scoreX s) (scoreO s + 1) (scoreDraw s)
  end.
Definition incrDraw (s : Scores) : Scores :=
  mkScores (scoreX s) (scoreO s) (scoreDraw s + 1).

(** [checkWin(player)], on [state.board] *)
Definition checkWin (st : State) (p : Player) : bool :=
  existsb (fun combination => forallb (holds (board st) p) combination)
          winPatterns.

(** [endGame(message)]: only the flag is state of the model. *)
Definition endGame (st : State) : State := setGameOver true st.

(** [makeMove(index, player)].  The second component tells whether the
    call reached [setTimeout(computerMove, 400)]; the guard's early
    [return] gives the state back untouched and schedules nothing. *)
Definition makeMove (i : nat) (p : Player) (st : State) : State * bool :=
  if truthy (get (board st) i) || gameOver st then (st, false)
  else
    let st1 := setBoard (store i (Mark p) (board st)) st in
    let st2 := setMoveHistory (moveHistory st1 ++ [mkEntry i p]) st1 in
    let st3 :=
      if checkWin st2 p then
        endGame (setScores (incrPlayer p (scores st2)) st2)
      else if everyCell (board st2) then
        endGame (setScores (incrDraw (scores st2)) st2)
      else
        setCurrentPlayer (match currentPlayer st2 with X => O | O => X end) st2 in
    (st3, mode_eqb (mode st3) vsComputer
          && player_eqb (currentPlayer st3) O
          && negb (gameOver st3)).

(** [newGame()]; [fill(null)] overwrites every slot of the array. *)
Definition newGame (st : State) : State :=
  let st1 := setBoard (map (fun _ => Null) (board st)) st in
  let st2 := setCurrentPlayer X st1 in
  let st3 := setMoveHistory [] st2 in
  setGameOver false st3.

(** [state.moveHistory.pop()]: the removed entry ([undefined] on an empty
    array) and what is left. *)
Definition pop (h : list Move) : option Move * list Move :=
  match rev h with
  | [] => (None, [])
  | m :: r => (Some m, rev r)
  end.

(** The [for] loop of [undoMove]. *)
Fixpoint undoLoop (undoCount : nat) (st : State) : State :=
  match undoCount with
  | 0 => st
  | S n =>
      let (lastMove, h) := pop (moveHistory st) in
      let st1 := setMoveHistory h st in
      let st2 :=
        match lastMove with
        | Some m => setBoard (store (index m) Null (board st1)) st1
        | None => st1
        end in
      undoLoop n st2
  end.

(** [undoMove()]; [state.mode] decides how many entries are popped. *)
Definition undoMove (st : State) : State :=
  if (length (moveHistory st) =? 0) || gameOver st then st
  else
    let undoCount :=
      if mode_eqb (mode st) vsComputer && (1 <? length (moveHistory st))
      then 2 else 1 in
    let st1 := undoLoop undoCount st in
    setCurrentPlayer
      (if 0 <? length (moveHistory st1) then
         match nth_error (moveHistory st1) (length (moveHistory st1) - 1) with
         | Some m => match player m with X => O | O => X end
         | None => X
         end
       else X) st1.

(** [getEasyMove()]; [rnd] is the value of [Math.random()], in [0, 1).
    [None] is [undefined].  The product with [emptyCells.length] is
    taken exactly, where the code rounds it to a double: at a sample
    just below [k / n] the code can read the next position of
    [emptyCells].  What is stated of [getEasyMove] below holds for
    whichever position is read. *)
Definition getEasyMove (rnd : Q) (st : State) : option nat :=
  let emptyCells := emptyCellsOf (board st) in
  nth_error emptyCells
    (Z.to_nat (Qfloor (rnd * inject_Z (Z.of_nat (length emptyCells))))).

(** [getBestMove()]: the [index] property of the object returned by
    [minimax] ([None] when the object has none), with the state as the
    search leaves it.  More fuel than the board has slots lets every
    recursive call return. *)
Definition getBestMove (st : State) : option (option nat * State) :=
  match Search.minimax (S (length (board st))) (board st) O
                       Search.NegInf Search.PosInf with
  | Some (m, b') => Some (Search.index m, setBoard b' st)
  | None => None
  end.

(** [computerMove()] followed by its delayed [makeMove(moveIndex, 'O')].
    An [undefined] [moveIndex] is outside the index domain of the
    model, and gives [None]; the two steps are given one by one, with
    the undefined index on a finished game, as [selectMove] and
    [delayedMove] below. *)
Definition computerMove (rnd : Q) (st : State) : option (State * bool) :=
  let chosen :=
    match difficulty st with
    | unbeatable => getBestMove st
    | easy => Some (getEasyMove rnd st, st)
    end in
  match chosen with
  | Some (Some moveIndex, st1) => Some (makeMove moveIndex O st1)
  | _ => None
  end.

(** ** The event handlers *)

(** Click on a cell: [makeMove(index, state.currentPlayer)]. *)
Definition clickCell (i : nat) (st : State) : State * bool :=
  makeMove i (currentPlayer st) st.

(** The "New Game" button resets the scores before [newGame()]. *)
Definition clickNewGame (st : State) : State :=
  newGame (setScores (mkScores 0 0 0) st).

Definition changeMode (m : Mode) (st : State) : State :=
  newGame (setMode m st).

Definition changeDifficulty (d : Difficulty) (st : State) : State :=
  newGame (setDifficulty d st).

(** Sequential play (the computer's scheduled move runs before the next
    click): the pending [computerMove] calls are run until none is
    scheduled. *)
Fixpoint settle (fuel : nat) (rnd : Q) (st : State) (pending : bool)
  : option State :=
  if pending then
    match fuel with
    | 0 => None
    | S n =>
        match computerMove rnd st with
        | Some (st', pending') => settle n rnd st' pending'
        | None => None
        end
    end
  else Some st.

(** One human click and the computer's answer to it. *)
Definition turn (rnd : Q) (i : nat) (st : State) : option State :=
  let (st1, pending) := clickCell i st in
  settle (S (length (board st1))) rnd st1 pending.

(** A whole sequence of clicks, each with the random sample its answer
    may consume. *)
Fixpoint play (clicks : list (nat * Q)) (st : State) : option State :=
  match clicks with
  | [] => Some st
  | (i, rnd) :: rest =>
      match turn rnd i st with
      | Some st' => play rest st'
      | None => None
      end
  end.

End Engine.

(** ** What [render] puts on the page *)

Module View.
Import Grid Engine.
Import String.StringSyntax.
Local Open Scope string_scope.

(** A [div] appended to the board: its class list, its text and its
    [dataset.index] (the number the click handler reads back with
    [parseInt]). *)
Record CellView := mkCellView {
  classList : list String.string;
  textContent : String.string;
  datasetIndex : nat
}.

(** What [render] writes: the cells of the board, the text of the
    status panel, [undoBtn.disabled] and the [display] style of the
    difficulty controls. *)
Record Page := mkPage {
  cells : list CellView;
  statusText : String.string;
  undoDisabled : bool;
  difficultyDisplay : String.string
}.

(** The text of a player's mark, and [value.toLowerCase()]. *)
Definition markText (p : Player) : String.string :=
  match p with X => "X" | O => "O" end.
Definition markClass (p : Player) : String.string :=
  match p with X => "x" | O => "o" end.

(** A counter inside a template literal: its decimal digits. *)
Definition showNumber (z : Z) : String.string :=
  DecimalString.NilZero.string_of_int (Z.to_int z).

(** The callback of [state.board.forEach]; [forEach] skips holes. *)
Fixpoint renderCells (from : nat) (b : Board) : list CellView :=
  match b with
  | [] => []
  | Hole :: t => renderCells (S from) t
  | Null :: t =>
      mkCellView ["cell"] String.EmptyString from :: renderCells (S from) t
  | Mark p :: t =>
      mkCellView ["cell"; markClass p] (markText p) from
      :: renderCells (S from) t
  end.

(** [render()] *)
Definition render (st : State) : Page :=
  {| cells := renderCells 0 (board st);
     statusText :=
       if gameOver st then
         String.append "Game Over! Score: X "
           (String.append (showNumber (scoreX (scores st)))
              (String.append " - O " (showNumber (scoreO (scores st)))))
       else
         String.append (markText (currentPlayer st))
           (String.append "'s Turn | X: "
              (String.append (showNumber (scoreX (scores st)))
                 (String.append " | O: "
                    (String.append (showNumber (scoreO (scores st)))
                       (String.append " | Draws: "
                          (showNumber (scoreDraw (scores st))))))));
     undoDisabled := (length (moveHistory st) =? 0) || gameOver st;
     difficultyDisplay :=
       if mode_eqb (mode st) vsComputer then "flex" else "none" |}.

(** The two texts [makeMove] passes to [endGame]. *)
Definition winsMessage (p : Player) : String.string :=
  String.append (markText p) " Wins!".
Definition drawMessage : String.string := "It's a Draw!".

(** The text [makeMove(index, player)] hands to [endGame], which puts it
    into the popup and shows it; [None] when the call does not reach
    [endGame]. *)
Definition endGameMessage (i : nat) (p : Player) (st : State)
  : option String.string :=
  if truthy (get (board st) i) || gameOver st then None
  else
    let st1 := setBoard (store i (Mark p) (board st)) st in
    let st2 := setMoveHistory (moveHistory st1 ++ [mkEntry i p]) st1 in
    if checkWin st2 p then Some (winsMessage p)
    else if everyCell (board st2) then Some drawMessage
    else None.

End View.

(** * Vocabulary of the statements *)

Import Grid Search Engine.

(** The number of [null] slots of a board: the length of [emptyCells]. *)
Fixpoint countNull (b : Board) : nat :=
  match b with
  | [] => 0
  | Null :: t => S (countNull t)
  | _ :: t => countNull t
  end.

(** [better p a b]: score [a] is strictly preferable to [b] for the
    player [p] (O maximises, X minimises); [noWorse] is its reflexive
    closure. *)
Definition better (p : Player) (a b : Z) : Prop :=
  match p with O => (b < a)%Z | X => (a < b)%Z end.

Definition noWorse (p : Player) (a b : Z) : Prop :=
  match p with O => (b <= a)%Z | X => (a <= b)%Z end.

(** The test of the scan: [moves[i].score > bestScore] for O,
    [moves[i].score < bestScore] for X. *)
Definition improves (p : Player) (s : Z) (bestScore : num) : bool :=
  match p with
  | O => num_gtb (Fin s) bestScore
  | X => num_ltb (Fin s) bestScore
  end.

(** A full board on which nobody has a line. *)
Definition fullDrawBoard : Board :=
  [Mark X; Mark O; Mark X; Mark X; Mark O; Mark O; Mark O; Mark X; Mark X].

(** [state.scores[p]] *)
Definition scoreOf (p : Player) (s : Scores) : Z :=
  match p with X => scoreX s | O => scoreO s end.

(** The spec's scenario: X holds cells 0 and 1, O holds 3 and 4, X to
    move. *)
Definition midGame : State :=
  mkState [Mark X; Mark X; Null; Mark O; Mark O; Null; Null; Null; Null]
          X twoPlayers easy false (mkScores 0 0 0)
          [mkEntry 0 X; mkEntry 3 O; mkEntry 1 X; mkEntry 4 O].

(** A position in which the last empty cell completes a diagonal for X. *)
Definition lastCell : State :=
  mkState [Mark X; Mark O; Mark X; Mark O; Mark X; Mark O; Mark O; Mark X; Null]
          X twoPlayers easy false (mkScores 0 0 0)
          [mkEntry 0 X; mkEntry 1 O; mkEntry 2 X; mkEntry 3 O;
           mkEntry 4 X; mkEntry 5 O; mkEntry 7 X; mkEntry 6 O].

(** The player to move after the history [h]: the opponent of the player
    of its last entry, X when it is empty. *)
Definition playerAfter (h : list Move) : Player :=
  match rev h with
  | [] => X
  | e :: _ => opponent (player e)
  end.

(** A history of two moves played against the computer, as in the
    spec's scenario; the fields the scenario leaves open are parameters. *)
Definition afterReply (cp : Player) (d : Difficulty) (s : Scores) : State :=
  mkState [Mark X; Null; Null; Null; Mark O; Null; Null; Null; Null]
          cp vsComputer d false s [mkEntry 0 X; mkEntry 4 O].

(** The states the session can be in: from the initial state, any
    sequence of [makeMove] calls on a cell of the grid (by either
    player), of computer moves, of undos, and of the resets behind the
    buttons and the configuration controls. *)
Inductive reachable : State -> Prop :=
| reach_initial : reachable initial
| reach_makeMove st i p :
    reachable st -> i < 9 -> reachable (fst (makeMove i p st))
| reach_computerMove st rnd st' pending :
    reachable st -> computerMove rnd st = Some (st', pending) -> reachable st'
| reach_undoMove st : reachable st -> reachable (undoMove st)
| reach_newGame st : reachable st -> reachable (newGame st)
| reach_clickNewGame st : reachable st -> reachable (clickNewGame st)
| reach_changeMode st m : reachable st -> reachable (changeMode m st)
| reach_changeDifficulty st d :
    reachable st -> reachable (changeDifficulty d st).

(** Replaying a history on the empty board. *)
Definition replay (h : list Move) : Board :=
  fold_left (fun b m => store (index m) (Mark (player m)) b) h emptyBoard.

(** The number of cells that carry a mark. *)
Definition countMarks (b : Board) : nat := length (filter truthy b).

(** A history and the board it was recorded on: every move went to a
    cell that was empty when it was made. *)
Inductive recorded : list Move -> Board -> Prop :=
| recorded_nil : recorded [] emptyBoard
| recorded_snoc h b m :
    recorded h b ->
    nth_error b (index m) = Some Null ->
    recorded (h ++ [m]) (store (index m) (Mark (player m)) b).

(** Two moves, an undo and a third move. *)
Definition undoneOnce : State :=
  fst (makeMove 8 O (undoMove (fst (makeMove 4 O (fst (makeMove 0 X initial)))))).

(** While the game runs nobody has a line; at no time do both players
    have one. *)
Definition linesInvariant (st : State) : Prop :=
  (gameOver st = false ->
   forall q, checkWinOnBoard (board st) q = false) /\
  (exists q, checkWinOnBoard (board st) q = false).

(** Alternating play as the board's click handler produces it: each move
    is made by the player whose turn it is, on a board that starts
    empty. *)
Inductive played : State -> Prop :=
| played_initial : played initial
| played_click st i : played st -> i < 9 -> played (fst (clickCell i st))
| played_again st : played st -> played (newGame st).

(** X has completed the top row in alternating play. *)
Definition topRowWon : State :=
  fst (clickCell 2 (fst (clickCell 4 (fst (clickCell 1
    (fst (clickCell 3 (fst (clickCell 0 initial))))))))).

(** The session after "vs computer" and "unbeatable" were selected:
    empty board, X to move. *)
Definition versusUnbeatable : State :=
  changeDifficulty unbeatable (changeMode vsComputer initial).

(** [makeMove] would pass its guard. *)
Definition legalClick (i : nat) (st : State) : bool :=
  negb (truthy (get (board st) i) || gameOver st).

(** The score [minimax] gives to the board of [st] is a terminal score
    (an object without [index]) that is not negative. *)
Definition terminalScoreOk (st : State) : bool :=
  match minimax (S (length (board st))) (board st) O NegInf PosInf with
  | Some (r, _) =>
      match Search.index r with
      | None => (0 <=? score r)%Z
      | Some _ => false
      end
  | None => false
  end.

(** X has no line, X's tally is still zero, and a finished game has a
    terminal score of at least zero. *)
Definition good (st : State) : bool :=
  difficulty_eqb (difficulty st) unbeatable
  && negb (checkWinOnBoard (board st) X)
  && (scoreX (scores st) =? 0)%Z
  && (if gameOver st then terminalScoreOk st else true).

(** [safe n st]: [st] is good, and so is every state that at most [n]
    further accepted clicks, each answered by the computer, lead to;
    after [n] accepted clicks no click is accepted any more. *)
Fixpoint safe (n : nat) (st : State) {struct n} : bool :=
  good st
  && forallb
       (fun i =>
          if legalClick i st then
            match n with
            | 0 => false
            | S n' =>
                match turn 0%Q i st with
                | Some st' => safe n' st'
                | None => false
                end
            end
          else true)
       (seq 0 9).

(** The state after X's click on the centre was answered by the
    unbeatable computer. *)
Definition answered : State :=
  match turn 0%Q 4 versusUnbeatable with
  | Some st => st
  | None => versusUnbeatable
  end.

(** X clicks through the cells in order; O answers 4, 2 and 6 and wins
    on the diagonal. *)
Definition sweep : list (nat * Q) :=
  [(0, 0%Q); (1, 0%Q); (2, 0%Q); (3, 0%Q); (4, 0%Q);
   (5, 0%Q); (6, 0%Q); (7, 0%Q); (8, 0%Q)].

(** ** What [makeMove] returns *)

(** The error kinds the spec gives [applyMove]; the code has no such
    values. *)
Inductive MoveError := CellOccupied | GameAlreadyOver.

(** The value a call [makeMove(index, player)] evaluates to: [None] is
    [undefined], [Some e] would be an error value.  The body has two
    exits, the bare [return;] of the guard and the end of the function,
    and neither carries a value. *)
Definition makeMoveReturn (i : nat) (p : Player) (st : State)
  : option MoveError :=
  if truthy (get (board st) i) || gameOver st then None else None.

(** The result the claim ascribes to the call, in the order of the spec:
    [CellOccupied] for a marked cell, [GameAlreadyOver] for a finished
    game, no error otherwise.  This follows the claim's words and is what
    [makeMoveReturn] is compared with. *)
Definition expectedError (i : nat) (st : State) : option MoveError :=
  if truthy (get (board st) i) then Some CellOccupied
  else if gameOver st then Some GameAlreadyOver
  else None.

(** ** The two steps of [computerMove] *)



(** ** Exhaustive search, for comparison *)

(** [pick p a b]: the score the player [p] prefers, the larger one for O
    and the smaller one for X. *)
Definition pick (p : Player) (a b : Z) : Z :=
  match p with O => Z.max a b | X => Z.min a b end.

(** The preferred score of a non-empty list [x :: l]. *)
Fixpoint best (p : Player) (x : Z) (l : list Z) : Z :=
  match l with
  | [] => x
  | y :: t => pick p x (best p y t)
  end.

(** Plain minimax without a window: every empty cell is tried in turn
    and nothing is cut off.  This is not taken from the source: it is the
    reference the pruned search is compared with.  The terminal scores
    and the order of the tests are those of [minimax]. *)
Fixpoint exhaustive (fuel : nat) (b : Board) (p : Player) : Z :=
  match fuel with
  | 0 => 0%Z
  | S fuel' =>
      if checkWinOnBoard b X then (-10)%Z
      else if checkWinOnBoard b O then 10%Z
      else
        match emptyCellsOf b with
        | [] => 0%Z
        | c :: rest =>
            let child c' := exhaustive fuel' (store c' (Mark p) b) (opponent p) in
            best p (child c) (map child rest)
        end
  end.

(** The exhaustive score of a position, with fuel for every empty cell. *)
Definition gameValue (b : Board) (p : Player) : Z :=
  exhaustive (S (countNull b)) b p.

(** The three scores a finished game can have. *)
Definition terminalScore (z : Z) : Prop :=
  z = (-10)%Z \/ z = 0%Z \/ z = 10%Z.

(** The order of the window bounds, as propositions. *)
Definition num_le (a b : num) : Prop :=
  match a, b with
  | NegInf, _ => True
  | _, PosInf => True
  | Fin x, Fin y => (x <= y)%Z
  | _, _ => False
  end.

Definition num_lt (a b : num) : Prop := ~ num_le b a.

(** What a score [s] returned for the window [(alpha, beta)] says about
    the exhaustive score [v]: at or below [alpha] it is an upper bound,
    at or above [beta] a lower bound, strictly inside it is exact. *)
Definition bounds (s v : Z) (alpha beta : num) : Prop :=
  (num_le (Fin s) alpha -> (v <= s)%Z) /\
  (num_le beta (Fin s) -> (s <= v)%Z) /\
  (num_lt alpha (Fin s) -> num_lt (Fin s) beta -> v = s).

(** A board on which play has ended: a line for X, a line for O, or no
    empty cell; the three tests [minimax] makes before it explores. *)
Definition isTerminal (b : Board) : bool :=
  checkWinOnBoard b X || checkWinOnBoard b O || everyCell b.

(** ** Sessions played in turn *)

(** The number of cells that carry the mark of [p]. *)
Definition countPlayer (p : Player) (b : Board) : nat :=
  length (filter (fun c => cell_eqb c (Mark p)) b).

(** The player of the [k]-th move of a game that X opens. *)
Definition mover (k : nat) : Player := if Nat.even k then X else O.

(** The entries of a history are X's and O's in turn, X first. *)
Definition alternating (h : list Move) : Prop :=
  forall k e, nth_error h k = Some e -> player e = mover k.

(** The test at the end of [makeMove] that schedules [computerMove]. *)
Definition computerDue (st : State) : bool :=
  mode_eqb (mode st) vsComputer
  && player_eqb (currentPlayer st) O
  && negb (gameOver st).

(** What holds between turns: the history alternates, the player to
    move is the one whose turn it is by the length of the history, and
    against the computer a running game waits for X. *)
Definition inTurn (st : State) : Prop :=
  alternating (moveHistory st) /\
  (gameOver st = false ->
   currentPlayer st = mover (length (moveHistory st))) /\
  (mode st = vsComputer -> gameOver st = false ->
   Nat.even (length (moveHistory st)) = true).

(** The states of a session in which nothing overlaps: each click is
    followed by the computer's answer, if one is due, before anything
    else happens. *)
Inductive session : State -> Prop :=
| session_initial : session initial
| session_turn st rnd i st' :
    session st -> i < 9 -> turn rnd i st = Some st' -> session st'
| session_undoMove st : session st -> session (undoMove st)
| session_newGame st : session st -> session (newGame st)
| session_clickNewGame st : session st -> session (clickNewGame st)
| session_changeMode st m : session st -> session (changeMode m st)
| session_changeDifficulty st d :
    session st -> session (changeDifficulty d st).

(** * Verification *)

(** ** Reading and writing slots *)

Section Slots.

Lemma get_store_same (i : nat) (v : Cell) (b : Board) :
  get (store i v b) i = v.
Proof.
  unfold get. revert b.
  induction i as [|i IH]; intros [|c t]; simpl; auto.
Qed.

Lemma get_store_other (i j : nat) (v : Cell) (b : Board) :
  i <> j -> get (store i v b) j = get b j.
Proof.
  unfold get. revert j b.
  induction i as [|i IH]; intros [|j] [|c t] Hij; simpl; try congruence; auto.
  - destruct j; reflexivity.
  - rewrite IH by congruence. destruct j; reflexivity.
Qed.

Lemma store_length_inside (i : nat) (v : Cell) (b : Board) :
  i < length b -> length (store i v b) = length b.
Proof.
  revert b. induction i as [|i IH]; intros [|c t] H; simpl in *; try lia.
  rewrite IH; lia.
Qed.

(** Writing a slot and then writing its old value back restores the
    array. *)
Lemma store_retract (i : nat) (v old : Cell) (b : Board) :
  nth_error b i = Some old -> store i old (store i v b) = b.
Proof.
  revert b. induction i as [|i IH]; intros [|c t] H; simpl in *; try discriminate.
  - congruence.
  - f_equal. auto.
Qed.

Lemma store_nth_error_same (i : nat) (v : Cell) (b : Board) :
  nth_error (store i v b) i = Some v.
Proof.
  revert b. induction i as [|i IH]; intros [|c t]; simpl; auto.
Qed.

Lemma store_nth_error_other (i j : nat) (v : Cell) (b : Board) :
  i <> j -> j < length b -> nth_error (store i v b) j = nth_error b j.
Proof.
  revert j b.
  induction i as [|i IH]; intros [|j] [|c t] Hij Hj; simpl in *;
    try lia; try congruence; auto.
  apply IH; lia.
Qed.

Lemma nth_error_get (b : Board) (i : nat) (c : Cell) :
  nth_error b i = Some c -> get b i = c.
Proof.
  unfold get. revert b. induction i as [|i IH]; intros [|d t] H;
    simpl in *; try discriminate; [congruence | auto].
Qed.

(** The cells of the grid are the only slots the click handler and the
    computer address; a write past them would lengthen the array, which
    is why the reachable states are generated by indices below 9. *)
Remark store_past_the_grid :
  length (store 9 (Mark X) emptyBoard) = 10 /\
  store 9 Null (store 9 (Mark X) emptyBoard) <> emptyBoard.
Proof. split; [reflexivity | discriminate]. Qed.

End Slots.

(** ** Empty cells *)

Section EmptyCells.

Lemma emptyCellsFrom_length (k : nat) (b : Board) :
  length (emptyCellsFrom k b) = countNull b.
Proof.
  revert k. induction b as [|c t IH]; intro k; simpl; auto.
  destruct c; simpl; auto.
Qed.

Lemma emptyCellsFrom_spec (k c : nat) (b : Board) :
  In c (emptyCellsFrom k b) <-> k <= c /\ nth_error b (c - k) = Some Null.
Proof.
  revert k. induction b as [|d t IH]; intro k; simpl.
  - split; [tauto | intros [_ H]; destruct (c - k); discriminate].
  - assert (Hstep : In c (emptyCellsFrom (S k) t) <->
                    k < c /\ nth_error (d :: t) (c - k) = Some Null).
    { rewrite IH. split; intros [H1 H2]; split; try lia.
      - replace (c - k) with (S (c - S k)) by lia. exact H2.
      - replace (c - k) with (S (c - S k)) in H2 by lia. exact H2. }
    destruct d; simpl; rewrite ?Hstep.
    + split; [intros [H1 H2]; split; [lia | exact H2] |].
      intros [H1 H2]. split; [|exact H2].
      destruct (Nat.eq_dec k c) as [->|]; [|lia].
      rewrite Nat.sub_diag in H2. discriminate.
    + split.
      * intros [->|[H1 H2]]; [rewrite Nat.sub_diag; auto | split; [lia | exact H2]].
      * intros [H1 H2]. destruct (Nat.eq_dec k c); [auto | right; split; [lia | exact H2]].
    + split; [intros [H1 H2]; split; [lia | exact H2] |].
      intros [H1 H2]. split; [|exact H2].
      destruct (Nat.eq_dec k c) as [->|]; [|lia].
      rewrite Nat.sub_diag in H2. discriminate.
Qed.

Lemma emptyCellsOf_spec (c : nat) (b : Board) :
  In c (emptyCellsOf b) <-> nth_error b c = Some Null.
Proof.
  unfold emptyCellsOf. rewrite emptyCellsFrom_spec, Nat.sub_0_r.
  split; [tauto | split; [lia | assumption]].
Qed.

(** The enumeration is in strictly ascending index order. *)
Lemma emptyCellsFrom_sorted (k : nat) (b : Board) :
  StronglySorted lt (emptyCellsFrom k b).
Proof.
  revert k. induction b as [|d t IH]; intro k; simpl; [constructor|].
  destruct d; auto.
  constructor; auto.
  apply Forall_forall. intros c Hc.
  apply emptyCellsFrom_spec in Hc. lia.
Qed.

Lemma countNull_store_mark (i : nat) (p : Player) (b : Board) :
  nth_error b i = Some Null ->
  S (countNull (store i (Mark p) b)) = countNull b.
Proof.
  revert b. induction i as [|i IH]; intros [|c t] H; simpl in *; try discriminate.
  - injection H as ->. reflexivity.
  - destruct c; simpl; auto.
Qed.

Lemma countNull_le_length (b : Board) : countNull b <= length b.
Proof.
  induction b as [|c t IH]; simpl; [lia | destruct c; simpl; lia].
Qed.

End EmptyCells.

(** ** The selection scan *)

Ltac num_cases :=
  unfold improves, better, noWorse, num_gtb, num_ltb, num_geb, num_leb in *;
  repeat match goal with
         | p : Player |- _ => destruct p
         | n : num |- _ => destruct n
         end;
  simpl in *;
  repeat match goal with
         | H : context [(?x <=? ?y)%Z] |- _ => destruct (Z.leb_spec x y)
         | |- context [(?x <=? ?y)%Z] => destruct (Z.leb_spec x y)
         end;
  simpl in *; try discriminate; try lia; auto.

Section Scan.

Lemma improves_chain p s t bs :
  improves p s bs = true -> improves p t (Fin s) = true ->
  better p t s /\ improves p t bs = true.
Proof. num_cases. Qed.

Lemma improves_fin_false p s t :
  improves p t (Fin s) = false -> noWorse p s t.
Proof. num_cases. Qed.

Lemma improves_fin_true p s t :
  improves p t (Fin s) = true -> better p t s.
Proof. num_cases. Qed.

Lemma improves_skip p s t bs :
  improves p s bs = false -> improves p t bs = true -> better p t s.
Proof. num_cases. Qed.

Lemma better_noWorse p a b : better p a b -> noWorse p a b.
Proof. num_cases. Qed.

Lemma noWorse_refl p a : noWorse p a a.
Proof. num_cases. Qed.

Lemma better_irrefl p a : ~ better p a a.
Proof. num_cases. Qed.

Lemma scan_unfold p m rest i bs bm :
  scan p (m :: rest) i bs bm =
  if improves p (score m) bs then scan p rest (S i) (Fin (score m)) (Some i)
  else scan p rest (S i) bs bm.
Proof. destruct p; reflexivity. Qed.

(** Either no entry improves on the running best, or the scan stops on
    the first entry that is no worse than every entry and strictly
    better than all entries before it. *)
Lemma scan_spec p moves :
  forall i bs bm,
    (scan p moves i bs bm = bm /\
     forall m, In m moves -> improves p (score m) bs = false)
    \/
    (exists k m,
        scan p moves i bs bm = Some (i + k) /\
        nth_error moves k = Some m /\
        improves p (score m) bs = true /\
        (forall j m', j < k -> nth_error moves j = Some m' ->
                      better p (score m) (score m')) /\
        (forall m', In m' moves -> noWorse p (score m) (score m'))).
Proof.
  induction moves as [|m0 rest IH]; intros i bs bm.
  - left. split; [reflexivity | intros m []].
  - rewrite scan_unfold.
    destruct (improves p (score m0) bs) eqn:Himp.
    + right.
      destruct (IH (S i) (Fin (score m0)) (Some i))
        as [[Hr Hall] | (k & m & Hr & Hnth & Hm & Hbefore & Hmax)].
      * exists 0, m0. rewrite Hr, Nat.add_0_r.
        repeat split; auto.
        -- intros j m' Hj; lia.
        -- intros m' [<-|Hin]; [apply noWorse_refl |].
           apply improves_fin_false, Hall, Hin.
      * exists (S k), m.
        destruct (improves_chain _ _ _ _ Himp Hm) as [Hb Hi].
        rewrite Hr. replace (S i + k) with (i + S k) by lia.
        repeat split; auto.
        -- intros [|j] m' Hj Hn; simpl in Hn.
           ++ injection Hn as <-. exact Hb.
           ++ apply (Hbefore j); [lia | exact Hn].
        -- intros m' [<-|Hin]; [apply better_noWorse, Hb | auto].
    + destruct (IH (S i) bs bm)
        as [[Hr Hall] | (k & m & Hr & Hnth & Hm & Hbefore & Hmax)].
      * left. split; [exact Hr |].
        intros m [<-|Hin]; auto.
      * right. exists (S k), m.
        rewrite Hr. replace (S i + k) with (i + S k) by lia.
        repeat split; auto.
        -- intros [|j] m' Hj Hn; simpl in Hn.
           ++ injection Hn as <-. eapply improves_skip; eauto.
           ++ apply (Hbefore j); [lia | exact Hn].
        -- intros m' [<-|Hin]; [|auto].
           apply better_noWorse. eapply improves_skip; eauto.
Qed.

(** On a non-empty [moves] the scan always finds an entry. *)
Lemma selectBest_spec p moves :
  moves <> [] ->
  exists k m,
    selectBest p moves = Some k /\
    nth_error moves k = Some m /\
    (forall j m', j < k -> nth_error moves j = Some m' ->
                  better p (score m) (score m')) /\
    (forall m', In m' moves -> noWorse p (score m) (score m')).
Proof.
  intros Hne. unfold selectBest.
  destruct (scan_spec p moves 0 (match p with O => NegInf | X => PosInf end) None)
    as [[_ Hall] | (k & m & Hr & Hnth & _ & Hbefore & Hmax)].
  - destruct moves as [|m0 rest]; [congruence |].
    specialize (Hall m0 (or_introl eq_refl)).
    destruct p; discriminate.
  - exists k, m. rewrite Hr. auto.
Qed.

End Scan.

(** ** The search loop writes and retracts *)

Section ExploreFrame.

Variable rec : Board -> Player -> num -> num -> option (move * Board).
Variable n : nat.

(** What is known of the recursive calls: on a board with fewer than [n]
    empty cells they return, and give the board back as they found it. *)
Hypothesis rec_returns :
  forall b p alpha beta,
    countNull b < n -> exists r, rec b p alpha beta = Some (r, b).

Lemma explore_frame p cells :
  forall b alpha beta moves,
    Forall (fun c => nth_error b c = Some Null) cells ->
    countNull b <= n ->
    exists evaluated,
      explore rec p cells b alpha beta moves = Some (moves ++ evaluated, b) /\
      map Search.index evaluated = map Some (firstn (length evaluated) cells) /\
      (cells <> [] -> evaluated <> []).
Proof.
  induction cells as [|c rest IH]; intros b alpha beta moves Hcells Hn.
  - exists []. simpl. rewrite app_nil_r. repeat split; auto.
  - inversion Hcells as [|? ? Hc Hrest]; subst.
    simpl.
    destruct (rec_returns (store c (Mark p) b) (opponent p) alpha beta)
      as [r Hr].
    { pose proof (countNull_store_mark c p b Hc). lia. }
    rewrite Hr, (store_retract c (Mark p) Null b Hc).
    match goal with
    | |- context [if ?g then _ else _] => destruct g
    end.
    + exists [mkMove (Some c) (score r)]. simpl.
      repeat split; auto. discriminate.
    + destruct (IH b
                   (match p with O => num_max alpha (Fin (score r)) | X => alpha end)
                   (match p with O => beta | X => num_min beta (Fin (score r)) end)
                   (moves ++ [mkMove (Some c) (score r)]) Hrest Hn)
        as (ev & Hev & Hidx & _).
      exists (mkMove (Some c) (score r) :: ev).
      rewrite Hev, <- app_assoc. simpl.
      repeat split; [f_equal; exact Hidx | discriminate].
Qed.

End ExploreFrame.

Section SearchReturns.

Lemma emptyCells_all_null (b : Board) :
  Forall (fun c => nth_error b c = Some Null) (emptyCellsOf b).
Proof.
  apply Forall_forall. intros c Hc. apply emptyCellsOf_spec, Hc.
Qed.

Lemma emptyCellsOf_length (b : Board) :
  length (emptyCellsOf b) = countNull b.
Proof. apply emptyCellsFrom_length. Qed.

(** With more fuel than empty cells, [minimax] returns an object, and
    the board it leaves behind is the board it was given. *)
Lemma minimax_returns (fuel : nat) :
  forall b p alpha beta,
    countNull b < fuel ->
    exists r, minimax fuel b p alpha beta = Some (r, b).
Proof.
  induction fuel as [|fuel IH]; intros b p alpha beta Hfuel; [lia|].
  simpl.
  destruct (checkWinOnBoard b X); [eauto|].
  destruct (checkWinOnBoard b O); [eauto|].
  destruct (length (emptyCellsOf b) =? 0) eqn:Hlen; [eauto|].
  apply Nat.eqb_neq in Hlen.
  destruct (explore_frame (minimax fuel) fuel IH p (emptyCellsOf b)
                          b alpha beta [] (emptyCells_all_null b))
    as (ev & Hev & _ & Hne); [lia|].
  rewrite Hev. simpl.
  destruct (selectBest_spec p ev) as (k & m & Hk & Hm & _).
  { apply Hne. intro H. rewrite H in Hlen. apply Hlen. reflexivity. }
  rewrite Hk, Hm. eauto.
Qed.

(** The shape of a call at a board that is not terminal. *)
Lemma minimax_root (fuel : nat) (b : Board) (p : Player) (alpha beta : num) :
  countNull b <= fuel ->
  checkWinOnBoard b X = false ->
  checkWinOnBoard b O = false ->
  emptyCellsOf b <> [] ->
  exists moves bestMove m,
    explore (minimax fuel) p (emptyCellsOf b) b alpha beta [] = Some (moves, b) /\
    map Search.index moves = map Some (firstn (length moves) (emptyCellsOf b)) /\
    moves <> [] /\
    selectBest p moves = Some bestMove /\
    nth_error moves bestMove = Some m /\
    minimax (S fuel) b p alpha beta = Some (m, b).
Proof.
  intros Hfuel HX HO Hne.
  destruct (explore_frame (minimax fuel) fuel (minimax_returns fuel) p
                          (emptyCellsOf b) b alpha beta []
                          (emptyCells_all_null b) Hfuel)
    as (ev & Hev & Hidx & Hev_ne).
  simpl in Hev.
  destruct (selectBest_spec p ev (Hev_ne Hne)) as (k & m & Hk & Hm & _).
  exists ev, k, m.
  repeat split; auto.
  simpl. rewrite HX, HO.
  destruct (length (emptyCellsOf b) =? 0) eqn:Hlen.
  - apply Nat.eqb_eq, length_zero_iff_nil in Hlen. contradiction.
  - rewrite Hev, Hk, Hm. reflexivity.
Qed.

End SearchReturns.

(** ** The fuel does not matter *)

Section MoreFuel.

Variables rec1 rec2 : Board -> Player -> num -> num -> option (move * Board).

Hypothesis rec_extends :
  forall b p alpha beta res,
    rec1 b p alpha beta = Some res -> rec2 b p alpha beta = Some res.

Lemma explore_extends (p : Player) (cells : list nat) :
  forall b alpha beta moves res,
    explore rec1 p cells b alpha beta moves = Some res ->
    explore rec2 p cells b alpha beta moves = Some res.
Proof.
  induction cells as [|c rest IH]; intros b alpha beta moves res; simpl;
    [auto |].
  destruct (rec1 (store c (Mark p) b) (opponent p) alpha beta)
    as [[r b2]|] eqn:Hrec; [| discriminate].
  rewrite (rec_extends _ _ _ _ _ Hrec).
  match goal with
  | |- (if ?g then _ else _) = _ -> _ => destruct g
  end; auto.
Qed.

End MoreFuel.

(** A call that returns with some fuel returns the same object and board
    with any larger amount: the result is that of the JavaScript call. *)
Lemma minimax_more_fuel (fuel : nat) :
  forall fuel' b p alpha beta res,
    fuel <= fuel' ->
    minimax fuel b p alpha beta = Some res ->
    minimax fuel' b p alpha beta = Some res.
Proof.
  induction fuel as [|fuel IH]; intros fuel' b p alpha beta res Hle;
    [discriminate |].
  destruct fuel' as [|fuel']; [lia |].
  simpl.
  destruct (checkWinOnBoard b X); [auto |].
  destruct (checkWinOnBoard b O); [auto |].
  destruct (length (emptyCellsOf b) =? 0); [auto |].
  destruct (explore (minimax fuel) p (emptyCellsOf b) b alpha beta [])
    as [[moves b']|] eqn:Hexp; [| discriminate].
  rewrite (explore_extends (minimax fuel) (minimax fuel')
             (fun b0 p0 a0 b1 res0 => IH fuel' b0 p0 a0 b1 res0 (le_S_n _ _ Hle))
             p _ _ _ _ _ _ Hexp).
  auto.
Qed.

(** Whatever the fuel, a call that returns hands the board back as it
    was. *)
Lemma minimax_frame (fuel : nat) (b b' : Board) (p : Player)
      (alpha beta : num) (r : move) :
  minimax fuel b p alpha beta = Some (r, b') -> b' = b.
Proof.
  intro H.
  pose proof (minimax_more_fuel fuel (fuel + S (countNull b)) b p alpha beta
                                _ (Nat.le_add_r _ _) H) as Hbig.
  destruct (minimax_returns (fuel + S (countNull b)) b p alpha beta) as [r' Hr'];
    [lia |].
  congruence.
Qed.

(** ** The index the search returns *)

Section ReturnedIndex.

Variable rec : Board -> Player -> num -> num -> option (move * Board).

(** Every object the loop pushes carries one of the cells it was given. *)
Lemma explore_indices (p : Player) (all : list nat) (cells : list nat) :
  forall b alpha beta moves res b',
    explore rec p cells b alpha beta moves = Some (res, b') ->
    incl cells all ->
    Forall (fun m => exists c, Search.index m = Some c /\ In c all) moves ->
    Forall (fun m => exists c, Search.index m = Some c /\ In c all) res.
Proof.
  induction cells as [|c rest IH];
    intros b alpha beta moves res b' Hexp Hincl Hmoves; simpl in Hexp.
  - injection Hexp as <- _. exact Hmoves.
  - destruct (rec (store c (Mark p) b) (opponent p) alpha beta)
      as [[r b2]|]; [| discriminate].
    assert (Hnext : Forall (fun m => exists c0, Search.index m = Some c0 /\ In c0 all)
                           (moves ++ [mkMove (Some c) (score r)])).
    { apply Forall_app. split; [exact Hmoves |].
      constructor; [| constructor].
      exists c. split; [reflexivity | apply Hincl; left; reflexivity]. }
    match type of Hexp with
    | (if ?g then _ else _) = _ => destruct g
    end.
    + injection Hexp as <- _. exact Hnext.
    + apply (IH _ _ _ _ _ _ Hexp); [| exact Hnext].
      intros x Hx. apply Hincl. right. exact Hx.
Qed.

End ReturnedIndex.

(** An index returned by [minimax] is the index of an empty cell of the
    board it was called on. *)
Lemma minimax_index_empty (fuel : nat) (b b' : Board) (p : Player)
      (alpha beta : num) (r : move) (j : nat) :
  minimax fuel b p alpha beta = Some (r, b') ->
  Search.index r = Some j ->
  nth_error b j = Some Null.
Proof.
  destruct fuel as [|fuel]; simpl; [discriminate |].
  destruct (checkWinOnBoard b X); [intro H; injection H as <- _; discriminate |].
  destruct (checkWinOnBoard b O); [intro H; injection H as <- _; discriminate |].
  destruct (length (emptyCellsOf b) =? 0);
    [intro H; injection H as <- _; discriminate |].
  destruct (explore (minimax fuel) p (emptyCellsOf b) b alpha beta [])
    as [[moves b'']|] eqn:Hexp; [| discriminate].
  destruct (selectBest p moves) as [k|]; [| discriminate].
  destruct (nth_error moves k) as [m|] eqn:Hk; [| discriminate].
  intro H. injection H as <- _. intro Hj.
  pose proof (explore_indices (minimax fuel) p (emptyCellsOf b) _ _ _ _ _ _ _
                              Hexp (incl_refl _) (Forall_nil _)) as Hall.
  rewrite Forall_forall in Hall.
  destruct (Hall m (nth_error_In _ _ Hk)) as (c & Hc & Hin).
  apply emptyCellsOf_spec. congruence.
Qed.

(** ** Theorems about the search *)

Section SortedCells.

Lemma sorted_nth_lt (l : list nat) :
  StronglySorted lt l ->
  forall j k a c,
    j < k -> nth_error l j = Some a -> nth_error l k = Some c -> a < c.
Proof.
  induction 1 as [|x l Hs IH Hall]; intros j k a c Hjk Ha Hc.
  - destruct j; discriminate.
  - destruct k as [|k]; [lia|].
    simpl in Hc. destruct j as [|j]; simpl in Ha.
    + injection Ha as <-.
      rewrite Forall_forall in Hall.
      apply Hall. eapply nth_error_In; eauto.
    + apply (IH j k); auto; lia.
Qed.

(** The [j]-th evaluated move carries the [j]-th empty cell. *)
Lemma evaluated_index (moves : list move) (cells : list nat) j m :
  map Search.index moves = map Some (firstn (length moves) cells) ->
  nth_error moves j = Some m ->
  exists c, Search.index m = Some c /\ nth_error cells j = Some c.
Proof.
  intros Hmap Hj.
  assert (Hlt : j < length moves) by (apply nth_error_Some; congruence).
  pose proof (map_nth_error Search.index j moves Hj) as H1.
  rewrite Hmap in H1.
  destruct (nth_error (firstn (length moves) cells) j) as [c|] eqn:Hc.
  - rewrite (map_nth_error Some j _ Hc) in H1.
    exists c. split; [congruence |].
    rewrite nth_error_firstn in Hc.
    destruct (Nat.ltb_spec j (length moves)); [exact Hc | lia].
  - apply nth_error_None in Hc.
    assert (length (map Search.index moves) = length moves) by apply length_map.
    rewrite Hmap, length_map in H. lia.
Qed.

End SortedCells.

(** C6: with enough fuel for the recursion to bottom out, [minimax]
    returns and the board it leaves behind is exactly the board it was
    called on, for every board, player and window (so also when
    [alpha >= beta] breaks the loop early); no amount of fuel lets it
    return with a different board; and [getBestMove] returns with the
    whole state, board included, as it was before the call. *)
Theorem search_restores_board (b : Board) (p : Player) (alpha beta : num)
        (fuel : nat) :
  countNull b < fuel ->
  (exists r, minimax fuel b p alpha beta = Some (r, b)) /\
  (forall fuel' r' b', minimax fuel' b p alpha beta = Some (r', b') -> b' = b) /\
  (forall st, board st = b ->
              exists moveIndex, getBestMove st = Some (moveIndex, st)).
Proof.
  intro Hfuel. split; [apply minimax_returns, Hfuel |].
  split; [intros fuel' r' b'; apply minimax_frame |].
  intros st <-. unfold getBestMove.
  destruct (minimax_returns (S (length (board st))) (board st) O NegInf PosInf)
    as [r Hr].
  { pose proof (countNull_le_length (board st)). lia. }
  rewrite Hr. exists (Search.index r). destruct st; reflexivity.
Qed.

Lemma search_restores_board_witness :
  countNull (store 4 (Mark X) emptyBoard) < 10 /\
  ((exists r, minimax 10 (store 4 (Mark X) emptyBoard) O NegInf PosInf
              = Some (r, store 4 (Mark X) emptyBoard)) /\
   (forall fuel' r' b',
       minimax fuel' (store 4 (Mark X) emptyBoard) O NegInf PosInf
       = Some (r', b') -> b' = store 4 (Mark X) emptyBoard) /\
   (forall st, board st = store 4 (Mark X) emptyBoard ->
               exists moveIndex, getBestMove st = Some (moveIndex, st))).
Proof.
  split; [vm_compute; lia |].
  apply (search_restores_board (store 4 (Mark X) emptyBoard) O NegInf PosInf 10).
  vm_compute; lia.
Defined.

(** C7: at a board that is not terminal, the loop evaluates a prefix of
    the empty cells, which are listed in strictly ascending index order;
    the move returned is one of the evaluated moves, no evaluated move has
    a better score for the mover (higher for O, lower for X), every move
    evaluated before it is strictly worse, and so among evaluated moves of
    equal score the one of lowest index is returned. *)
Theorem root_selects_first_extreme (fuel : nat) (b : Board) (p : Player)
        (alpha beta : num) :
  countNull b <= fuel ->
  checkWinOnBoard b X = false ->
  checkWinOnBoard b O = false ->
  emptyCellsOf b <> [] ->
  exists moves bestMove m,
    explore (minimax fuel) p (emptyCellsOf b) b alpha beta [] = Some (moves, b) /\
    minimax (S fuel) b p alpha beta = Some (m, b) /\
    StronglySorted lt (emptyCellsOf b) /\
    map Search.index moves = map Some (firstn (length moves) (emptyCellsOf b)) /\
    nth_error moves bestMove = Some m /\
    (forall m', In m' moves -> noWorse p (score m) (score m')) /\
    (forall j m', j < bestMove -> nth_error moves j = Some m' ->
                  better p (score m) (score m')) /\
    (forall m' i i', In m' moves -> score m' = score m ->
                     Search.index m = Some i -> Search.index m' = Some i' -> i <= i').
Proof.
  intros Hfuel HX HO Hne.
  destruct (minimax_root fuel b p alpha beta Hfuel HX HO Hne)
    as (moves & k & m & Hexp & Hidx & Hmoves & Hsel & Hnth & Hres).
  destruct (selectBest_spec p moves Hmoves)
    as (k' & m1 & Hsel' & Hnth' & Hbefore & Hmax).
  rewrite Hsel in Hsel'. injection Hsel' as <-.
  rewrite Hnth in Hnth'. injection Hnth' as <-.
  pose proof (emptyCellsFrom_sorted 0 b) as Hsorted.
  exists moves, k, m.
  repeat split; auto.
  intros m' i i' Hin Hscore Hi Hi'.
  destruct (In_nth_error _ _ Hin) as [j Hj].
  destruct (evaluated_index moves _ j m' Hidx Hj) as (c' & Hc' & Hcj).
  destruct (evaluated_index moves _ k m Hidx Hnth) as (c & Hc & Hck).
  assert (c = i) by congruence. assert (c' = i') by congruence. subst c c'.
  destruct (Nat.lt_trichotomy j k) as [Hlt | [-> | Hgt]].
  - exfalso. specialize (Hbefore j m' Hlt Hj).
    rewrite Hscore in Hbefore. exact (better_irrefl _ _ Hbefore).
  - unfold emptyCellsOf in *. assert (i = i') by congruence. lia.
  - pose proof (sorted_nth_lt _ Hsorted k j i i' Hgt Hck Hcj). lia.
Qed.

Lemma root_selects_first_extreme_witness :
  exists moves bestMove m,
    explore (minimax 9) O (emptyCellsOf emptyBoard) emptyBoard NegInf PosInf []
      = Some (moves, emptyBoard) /\
    minimax 10 emptyBoard O NegInf PosInf = Some (m, emptyBoard) /\
    StronglySorted lt (emptyCellsOf emptyBoard) /\
    map Search.index moves = map Some (firstn (length moves) (emptyCellsOf emptyBoard)) /\
    nth_error moves bestMove = Some m /\
    (forall m', In m' moves -> noWorse O (score m) (score m')) /\
    (forall j m', j < bestMove -> nth_error moves j = Some m' ->
                  better O (score m) (score m')) /\
    (forall m' i i', In m' moves -> score m' = score m ->
                     Search.index m = Some i -> Search.index m' = Some i' -> i <= i').
Proof.
  apply (root_selects_first_extreme 9 emptyBoard O NegInf PosInf).
  - vm_compute; lia.
  - reflexivity.
  - reflexivity.
  - discriminate.
Defined.

(** C9: on a board without an empty cell, [getEasyMove] yields no index
    whatever [Math.random()] returns, and [getBestMove] yields no index
    either: both give [undefined], the value that stands for the
    [NoLegalMoves] condition. *)
Theorem no_move_on_full_board (st : State) :
  countNull (board st) = 0 ->
  (forall rnd, getEasyMove rnd st = None) /\
  getBestMove st = Some (None, st).
Proof.
  intro Hfull.
  assert (Hempty : emptyCellsOf (board st) = []).
  { apply length_zero_iff_nil. rewrite emptyCellsOf_length. exact Hfull. }
  split.
  - intro rnd. unfold getEasyMove. rewrite Hempty.
    destruct (Z.to_nat _); reflexivity.
  - unfold getBestMove. simpl. rewrite Hempty. simpl.
    destruct (checkWinOnBoard (board st) X);
      [destruct st; reflexivity |].
    destruct (checkWinOnBoard (board st) O); destruct st; reflexivity.
Qed.

Lemma no_move_on_full_board_witness :
  countNull fullDrawBoard = 0 /\
  (forall rnd, getEasyMove rnd (setBoard fullDrawBoard initial) = None) /\
  getBestMove (setBoard fullDrawBoard initial)
  = Some (None, setBoard fullDrawBoard initial).
Proof.
  split; [reflexivity |].
  apply (no_move_on_full_board (setBoard fullDrawBoard initial)).
  reflexivity.
Defined.

(** ** Theorems about [makeMove] *)

(** Projections of updated states, without unfolding the win check. *)
Ltac fields :=
  cbn [fst snd board currentPlayer mode difficulty gameOver scores moveHistory
       setBoard setCurrentPlayer setMode setDifficulty setGameOver setScores
       setMoveHistory endGame] in *.

(** What an accepted [makeMove] computes. *)
Lemma makeMove_running (st : State) (i : nat) (p : Player) :
  truthy (get (board st) i) = false ->
  gameOver st = false ->
  fst (makeMove i p st) =
  let b' := store i (Mark p) (board st) in
  let st2 := setMoveHistory (moveHistory st ++ [mkEntry i p]) (setBoard b' st) in
  if checkWinOnBoard b' p then
    endGame (setScores (incrPlayer p (scores st)) st2)
  else if everyCell b' then
    endGame (setScores (incrDraw (scores st)) st2)
  else setCurrentPlayer (opponent (currentPlayer st)) st2.
Proof.
  intros Hcell Hover. unfold makeMove. rewrite Hcell, Hover. reflexivity.
Qed.

(** The history and the board after an accepted [makeMove]. *)
Lemma makeMove_history (i : nat) (p : Player) (st : State) :
  truthy (get (board st) i) = false ->
  gameOver st = false ->
  moveHistory (fst (makeMove i p st)) = moveHistory st ++ [mkEntry i p] /\
  board (fst (makeMove i p st)) = store i (Mark p) (board st).
Proof.
  intros Hcell Hover. rewrite (makeMove_running st i p Hcell Hover). cbv zeta.
  repeat match goal with
         | |- context [if ?c then _ else _] => destruct c
         end; split; reflexivity.
Qed.

Lemma makeMove_not_rejected (i : nat) (p : Player) (st : State) :
  truthy (get (board st) i) = false ->
  gameOver st = false ->
  fst (makeMove i p st) <> st.
Proof.
  intros Hcell Hover Heq.
  destruct (makeMove_history i p st Hcell Hover) as [Hh _].
  rewrite Heq in Hh. apply (f_equal (@length _)) in Hh.
  rewrite length_app in Hh. simpl in Hh. lia.
Qed.

(** [checkWin] is [checkWinOnBoard] on the board of the state. *)
Lemma checkWin_onBoard (st : State) (p : Player) :
  checkWin st p = checkWinOnBoard (board st) p.
Proof. reflexivity. Qed.

Section Occupancy.

(** On an array without holes, [every(cell => cell)] holds exactly when
    every slot carries a mark. *)
Lemma everyCell_marks (b : Board) :
  Forall (fun c => c <> Hole) b ->
  (everyCell b = true <-> forall i, i < length b -> truthy (get b i) = true).
Proof.
  unfold everyCell, get. induction 1 as [|c t Hc _ IH]; simpl.
  - split; [intros _ i Hi; lia | reflexivity].
  - rewrite andb_true_iff, IH. split.
    + intros [H1 H2] [|i] Hi; [destruct c; simpl; congruence | apply H2; lia].
    + intro Hall. split.
      * specialize (Hall 0 (Nat.lt_0_succ _)). destruct c; simpl in *; congruence.
      * intros i Hi. apply (Hall (S i)). lia.
Qed.

Lemma everyCell_countNull (b : Board) :
  everyCell b = true <-> countNull b = 0.
Proof.
  unfold everyCell. induction b as [|c t IH]; simpl; [tauto|].
  destruct c; simpl; rewrite ?IH; try tauto.
  split; [discriminate | lia].
Qed.

End Occupancy.

(** The claim C4 as first stated fails on its second half: a rejected
    call does not return [CellOccupied] or [GameAlreadyOver].  The call
    on the marked cell 3 of a running game, and the call on the empty
    cell 5 of a finished game, both evaluate to [undefined]. *)
Lemma makeMove_returns_no_error :
  (exists q, get (board midGame) 3 = Mark q) /\
  expectedError 3 midGame = Some CellOccupied /\
  makeMoveReturn 3 X midGame <> expectedError 3 midGame /\
  gameOver topRowWon = true /\
  expectedError 5 topRowWon = Some GameAlreadyOver /\
  makeMoveReturn 5 O topRowWon <> expectedError 5 topRowWon.
Proof.
  split; [exists O; reflexivity |].
  split; [reflexivity |]. split; [discriminate |].
  split; [reflexivity |]. split; [reflexivity | discriminate].
Qed.

(** C4 (as amended): when the targeted cell holds a mark or the game is
    over, [makeMove] returns at its guard: the state (board, current
    player, history, flag, scores, configuration) is the state it was
    called in, no computer move is scheduled, and the call evaluates to
    [undefined], the value every call of [makeMove] evaluates to, an
    accepted one included: the rejection is a silent no-op and no error
    value tells the two causes apart. *)
Theorem makeMove_rejected_silently (st : State) (i : nat) (p : Player) :
  (exists q, get (board st) i = Mark q) \/ gameOver st = true ->
  makeMove i p st = (st, false) /\
  makeMoveReturn i p st = None /\
  (forall j q st2, makeMoveReturn j q st2 = makeMoveReturn i p st).
Proof.
  intro Hrej.
  assert (Hnone : forall j q st2, makeMoveReturn j q st2 = None).
  { intros j q st2. unfold makeMoveReturn.
    destruct (truthy (get (board st2) j) || gameOver st2); reflexivity. }
  split; [| split; [apply Hnone | intros j q st2; rewrite !Hnone; reflexivity]].
  destruct Hrej as [[q Hq] | Hover]; unfold makeMove.
  - rewrite Hq. reflexivity.
  - rewrite Hover, orb_true_r. reflexivity.
Qed.

Lemma makeMove_rejected_silently_witness :
  ((exists q, get (board midGame) 3 = Mark q) \/ gameOver midGame = true) /\
  makeMove 3 X midGame = (midGame, false) /\
  makeMoveReturn 3 X midGame = None /\
  makeMoveReturn 2 X midGame = makeMoveReturn 3 X midGame.
Proof.
  assert (H : (exists q, get (board midGame) 3 = Mark q)
              \/ gameOver midGame = true)
    by (left; exists O; reflexivity).
  split; [exact H |].
  destruct (makeMove_rejected_silently midGame 3 X H) as (H1 & H2 & H3).
  split; [exact H1 |]. split; [exact H2 |]. exact (H3 2 X midGame).
Defined.

(** C2: on a state whose game is running and whose targeted cell is
    empty, [makeMove] writes the mark, appends the move to the history,
    keeps the configuration, and settles exactly one of three outcomes,
    tested in this order: the mover has a winning line (the mover's score
    goes up by one, the other two tallies stay, the game is over);
    otherwise the board is full (the draw tally goes up by one, the game
    is over); otherwise the game goes on with the current player
    switched.  So a winning move that also fills the board is counted as
    a win and leaves the draw tally alone. *)
Theorem makeMove_accepted (st : State) (i : nat) (p : Player) :
  gameOver st = false ->
  nth_error (board st) i = Some Null ->
  let st' := fst (makeMove i p st) in
  let b' := store i (Mark p) (board st) in
  board st' = b' /\
  moveHistory st' = moveHistory st ++ [mkEntry i p] /\
  mode st' = mode st /\ difficulty st' = difficulty st /\
  ((checkWinOnBoard b' p = true /\
    scoreOf p (scores st') = (scoreOf p (scores st) + 1)%Z /\
    scoreOf (opponent p) (scores st') = scoreOf (opponent p) (scores st) /\
    scoreDraw (scores st') = scoreDraw (scores st) /\
    gameOver st' = true /\ currentPlayer st' = currentPlayer st)
   \/
   (checkWinOnBoard b' p = false /\ everyCell b' = true /\
    scoreDraw (scores st') = (scoreDraw (scores st) + 1)%Z /\
    scoreX (scores st') = scoreX (scores st) /\
    scoreO (scores st') = scoreO (scores st) /\
    gameOver st' = true /\ currentPlayer st' = currentPlayer st)
   \/
   (checkWinOnBoard b' p = false /\ everyCell b' = false /\
    scores st' = scores st /\
    gameOver st' = false /\
    currentPlayer st' = opponent (currentPlayer st))) /\
  (checkWinOnBoard b' p = true -> everyCell b' = true ->
   scoreOf p (scores st') = (scoreOf p (scores st) + 1)%Z /\
   scoreDraw (scores st') = scoreDraw (scores st)).
Proof.
  intros Hover Hcell st' b'.
  assert (Hst' : st' =
    let st2 := setMoveHistory (moveHistory st ++ [mkEntry i p])
                              (setBoard b' st) in
    if checkWinOnBoard b' p then
      endGame (setScores (incrPlayer p (scores st)) st2)
    else if everyCell b' then
      endGame (setScores (incrDraw (scores st)) st2)
    else setCurrentPlayer (opponent (currentPlayer st)) st2).
  { subst st' b'. unfold makeMove.
    rewrite (nth_error_get _ _ _ Hcell), Hover. reflexivity. }
  simpl in Hst'.
  destruct (checkWinOnBoard b' p) eqn:Hwin;
    [| destruct (everyCell b') eqn:Hfull]; rewrite Hst'; simpl;
    (split; [reflexivity |]); (split; [reflexivity |]);
    (split; [reflexivity |]); (split; [reflexivity |]); split;
    try (intros; discriminate).
  - left. repeat split; destruct p; reflexivity.
  - intros _ _. split; destruct p; reflexivity.
  - right; left. repeat split.
  - right; right. repeat split; auto.
Qed.

Lemma makeMove_accepted_witness :
  gameOver lastCell = false /\
  nth_error (board lastCell) 8 = Some Null /\
  scoreOf X (scores (fst (makeMove 8 X lastCell)))
  = (scoreOf X (scores lastCell) + 1)%Z /\
  scoreDraw (scores (fst (makeMove 8 X lastCell))) = scoreDraw (scores lastCell).
Proof.
  split; [reflexivity |]. split; [reflexivity |].
  pose proof (makeMove_accepted lastCell 8 X eq_refl eq_refl) as H.
  cbv zeta in H.
  destruct H as (_ & _ & _ & _ & _ & Hlast).
  apply Hlast; reflexivity.
Defined.

(** ** Theorems about [undoMove] *)

Section Undo.

Lemma pop_snoc (h : list Move) (m : Move) : pop (h ++ [m]) = (Some m, h).
Proof.
  unfold pop. rewrite rev_app_distr. simpl. rewrite rev_involutive. reflexivity.
Qed.

Lemma playerAfter_snoc (h : list Move) (e : Move) :
  playerAfter (h ++ [e]) = opponent (player e).
Proof. unfold playerAfter. rewrite rev_app_distr. reflexivity. Qed.

(** The expression assigned to [state.currentPlayer] at the end of
    [undoMove]. *)
Lemma last_entry_player (h : list Move) :
  (if 0 <? length h then
     match nth_error h (length h - 1) with
     | Some m => match player m with X => O | O => X end
     | None => X
     end
   else X) = playerAfter h.
Proof.
  destruct h as [|e0 h0]; [reflexivity |].
  destruct (@exists_last _ (e0 :: h0)) as (h1 & e & Heq); [discriminate|].
  rewrite Heq, playerAfter_snoc, length_app. simpl.
  rewrite Nat.add_1_r. simpl. rewrite Nat.sub_0_r.
  rewrite nth_error_app2, Nat.sub_diag by lia. simpl.
  destruct (player e); reflexivity.
Qed.

Lemma undoLoop_frame (count : nat) :
  forall st,
    scores (undoLoop count st) = scores st /\
    gameOver (undoLoop count st) = gameOver st /\
    mode (undoLoop count st) = mode st /\
    difficulty (undoLoop count st) = difficulty st.
Proof.
  induction count as [|count IH]; intro st; simpl; [auto|].
  destruct (pop (moveHistory st)) as [[m|] h];
    match goal with |- context [undoLoop count ?s] => destruct (IH s) as (? & ? & ? & ?) end;
    simpl in *; auto.
Qed.

Lemma undoMove_noop (st : State) :
  moveHistory st = [] \/ gameOver st = true -> undoMove st = st.
Proof.
  intros [Hnil | Hover]; unfold undoMove.
  - rewrite Hnil. reflexivity.
  - rewrite Hover, orb_true_r. reflexivity.
Qed.

(** A single pop: two-player mode, or only one entry recorded. *)
Lemma undoMove_one (st : State) (h : list Move) (m : Move) :
  gameOver st = false ->
  moveHistory st = h ++ [m] ->
  mode st = twoPlayers \/ h = [] ->
  undoMove st =
  setCurrentPlayer (playerAfter h)
    (setBoard (store (index m) Null (board st)) (setMoveHistory h st)).
Proof.
  intros Hover Hhist Hone. unfold undoMove.
  rewrite Hover, Hhist, length_app, Nat.add_1_r. simpl Nat.eqb. simpl orb.
  assert (Hcount : (if mode_eqb (mode st) vsComputer && (1 <? S (length h))
                    then 2 else 1) = 1).
  { destruct Hone as [-> | ->]; [reflexivity |].
    simpl. rewrite andb_false_r. reflexivity. }
  rewrite Hcount. cbn [undoLoop]. rewrite Hhist, pop_snoc.
  cbn [moveHistory setBoard setMoveHistory].
  rewrite last_entry_player. reflexivity.
Qed.

(** Two pops: against the computer, with at least two entries. *)
Lemma undoMove_two (st : State) (h : list Move) (m' m : Move) :
  gameOver st = false ->
  moveHistory st = (h ++ [m']) ++ [m] ->
  mode st = vsComputer ->
  undoMove st =
  setCurrentPlayer (playerAfter h)
    (setBoard (store (index m') Null (store (index m) Null (board st)))
              (setMoveHistory h st)).
Proof.
  intros Hover Hhist Hmode. unfold undoMove.
  rewrite Hover, Hhist, Hmode, !length_app, !Nat.add_1_r.
  simpl Nat.eqb. simpl orb. simpl mode_eqb.
  change (1 <? S (S (length h))) with true. simpl andb. cbn [undoLoop].
  rewrite Hhist, pop_snoc. cbn [moveHistory setBoard setMoveHistory].
  rewrite pop_snoc. cbn [moveHistory setBoard setMoveHistory board].
  rewrite last_entry_player. destruct st; reflexivity.
Qed.

End Undo.

(** C5: [undoMove] leaves the state as it is exactly when the history is
    empty or the game is over.  Otherwise it pops the last move and
    clears its cell; against the computer, when the history held at
    least two entries, it pops and clears the one before as well; and the
    current player becomes the opponent of the player of the entry that
    is now last, or X when no entry is left.  In the scenario of the
    spec (history [{0,X},{4,O}], against the computer) the result has an
    empty board, an empty history and X to move. *)
Theorem undoMove_spec :
  (forall st,
      undoMove st = st <-> moveHistory st = [] \/ gameOver st = true) /\
  (forall st h m,
      gameOver st = false ->
      moveHistory st = h ++ [m] ->
      let st' := undoMove st in
      (mode st = vsComputer ->
       forall h' m', h = h' ++ [m'] ->
                     moveHistory st' = h' /\
                     board st' =
                     store (index m') Null (store (index m) Null (board st))) /\
      (mode st = twoPlayers \/ h = [] ->
       moveHistory st' = h /\
       board st' = store (index m) Null (board st)) /\
      (moveHistory st' = [] -> currentPlayer st' = X) /\
      (forall h0 e, moveHistory st' = h0 ++ [e] ->
                    currentPlayer st' = opponent (player e))) /\
  (forall cp d s,
      undoMove (afterReply cp d s)
      = mkState emptyBoard X vsComputer d false s []).
Proof.
  assert (Hrun : forall st h m,
             gameOver st = false -> moveHistory st = h ++ [m] ->
             (mode st = vsComputer ->
              forall h' m', h = h' ++ [m'] ->
                moveHistory (undoMove st) = h' /\
                board (undoMove st) =
                store (index m') Null (store (index m) Null (board st))) /\
             (mode st = twoPlayers \/ h = [] ->
              moveHistory (undoMove st) = h /\
              board (undoMove st) = store (index m) Null (board st)) /\
             currentPlayer (undoMove st) = playerAfter (moveHistory (undoMove st))).
  { intros st h m Hover Hhist. split; [|split].
    - intros Hmode h' m' ->.
      rewrite (undoMove_two st h' m' m Hover Hhist Hmode). split; reflexivity.
    - intros Hone. rewrite (undoMove_one st h m Hover Hhist Hone).
      split; reflexivity.
    - destruct (mode st) eqn:Hmode.
      + rewrite (undoMove_one st h m Hover Hhist (or_introl Hmode)). reflexivity.
      + destruct h as [|e0 h0].
        * rewrite (undoMove_one st [] m Hover Hhist (or_intror eq_refl)).
          reflexivity.
        * destruct (@exists_last _ (e0 :: h0)) as (h' & m' & Heq);
            [discriminate |].
          rewrite Heq in Hhist.
          rewrite (undoMove_two st h' m' m Hover Hhist Hmode). reflexivity. }
  split; [|split].
  - intro st. split.
    + intro Hfix.
      destruct (gameOver st) eqn:Hover; [right; reflexivity | left].
      destruct (moveHistory st) as [|e0 h0] eqn:Hhist; [reflexivity | exfalso].
      destruct (@exists_last _ (e0 :: h0)) as (h & m & Heq); [discriminate |].
      rewrite Heq in Hhist.
      destruct (Hrun st h m Hover Hhist) as (Htwo & Hone & _).
      rewrite Hfix in Htwo, Hone.
      assert (Hlen : forall (a c : list Move), a = a ++ c -> length c = 0).
      { intros a c H. apply (f_equal (@length _)) in H.
        rewrite length_app in H. lia. }
      destruct (mode st) eqn:Hmode.
      * destruct (Hone (or_introl eq_refl)) as [Hh _].
        rewrite Hhist in Hh. symmetry in Hh. apply Hlen in Hh. discriminate.
      * destruct h as [|e1 h1].
        -- destruct (Hone (or_intror eq_refl)) as [Hh _].
           rewrite Hhist in Hh. discriminate.
        -- destruct (@exists_last _ (e1 :: h1)) as (h' & m' & Heq');
             [discriminate |].
           destruct (Htwo eq_refl h' m' Heq') as [Hh _].
           rewrite Hhist, Heq', <- app_assoc in Hh. symmetry in Hh.
           apply Hlen in Hh. discriminate.
    + apply undoMove_noop.
  - intros st h m Hover Hhist st'. subst st'.
    destruct (Hrun st h m Hover Hhist) as (Htwo & Hone & Hcp).
    split; [exact Htwo | split; [exact Hone | split]].
    + intro Hnil. rewrite Hcp, Hnil. reflexivity.
    + intros h0 e Hlast. rewrite Hcp, Hlast. apply playerAfter_snoc.
  - intros cp d s. reflexivity.
Qed.

Lemma undoMove_spec_witness :
  (undoMove initial = initial) /\
  undoMove (afterReply O easy (mkScores 2 1 0))
  = mkState emptyBoard X vsComputer easy false (mkScores 2 1 0) [].
Proof.
  destruct undoMove_spec as (Hnoop & _ & Hscenario).
  split.
  - apply (Hnoop initial). left. reflexivity.
  - apply (Hscenario O easy (mkScores 2 1 0)).
Defined.

(** C10: when [undoMove] performs its pops, the three tallies and the
    game-over flag are what they were before the call. *)
Theorem undoMove_keeps_tallies (st : State) :
  moveHistory st <> [] ->
  gameOver st = false ->
  scores (undoMove st) = scores st /\ gameOver (undoMove st) = gameOver st.
Proof.
  intros _ _. unfold undoMove.
  destruct ((length (moveHistory st) =? 0) || gameOver st); [auto |].
  match goal with
  | |- context [undoLoop ?c st] =>
      destruct (undoLoop_frame c st) as (Hs & Hg & _)
  end.
  simpl. auto.
Qed.

Lemma undoMove_keeps_tallies_witness :
  moveHistory (afterReply X unbeatable (mkScores 3 4 5)) <> [] /\
  gameOver (afterReply X unbeatable (mkScores 3 4 5)) = false /\
  scores (undoMove (afterReply X unbeatable (mkScores 3 4 5)))
  = mkScores 3 4 5 /\
  gameOver (undoMove (afterReply X unbeatable (mkScores 3 4 5))) = false.
Proof.
  assert (Hne : moveHistory (afterReply X unbeatable (mkScores 3 4 5)) <> [])
    by discriminate.
  split; [exact Hne |]. split; [reflexivity |].
  exact (undoMove_keeps_tallies (afterReply X unbeatable (mkScores 3 4 5))
                                Hne eq_refl).
Defined.

(** ** The computer's move *)

(** [getBestMove] gives the state back as it found it. *)
Lemma getBestMove_frame (st : State) :
  exists moveIndex,
    getBestMove st = Some (moveIndex, st) /\
    forall j, moveIndex = Some j -> nth_error (board st) j = Some Null.
Proof.
  unfold getBestMove.
  destruct (minimax_returns (S (length (board st))) (board st) O NegInf PosInf)
    as [r Hr].
  { pose proof (countNull_le_length (board st)). lia. }
  rewrite Hr. exists (Search.index r). split; [destruct st; reflexivity |].
  intros j Hj. exact (minimax_index_empty _ _ _ _ _ _ _ _ Hr Hj).
Qed.

(** When [computerMove] has an index to play, it plays O on a cell that
    is empty. *)
Lemma computerMove_makeMove (rnd : Q) (st : State) (res : State * bool) :
  computerMove rnd st = Some res ->
  exists j, nth_error (board st) j = Some Null /\ res = makeMove j O st.
Proof.
  unfold computerMove. destruct (difficulty st).
  - destruct (getEasyMove rnd st) as [j|] eqn:Hj; [| discriminate].
    intro H. injection H as <-. exists j. split; [| reflexivity].
    apply emptyCellsOf_spec. unfold getEasyMove in Hj.
    exact (nth_error_In _ _ Hj).
  - destruct (getBestMove_frame st) as (moveIndex & Hbest & Hempty).
    rewrite Hbest. destruct moveIndex as [j|]; [| discriminate].
    intro H. injection H as <-. exists j. split; [apply Hempty |]; reflexivity.
Qed.

(** ** Reachable states *)

Section History.

Lemma replay_snoc (h : list Move) (m : Move) :
  replay (h ++ [m]) = store (index m) (Mark (player m)) (replay h).
Proof. unfold replay. rewrite fold_left_app. reflexivity. Qed.

Lemma countMarks_store (i : nat) (p : Player) (b : Board) :
  nth_error b i = Some Null ->
  countMarks (store i (Mark p) b) = S (countMarks b).
Proof.
  unfold countMarks. revert b.
  induction i as [|i IH]; intros [|c t] H; simpl in *; try discriminate.
  - injection H as ->. reflexivity.
  - destruct (truthy c); simpl; rewrite (IH t H); reflexivity.
Qed.

Lemma nth_error_Some_lt (b : Board) (i : nat) (c : Cell) :
  nth_error b i = Some c -> i < length b.
Proof. intro H. apply nth_error_Some. congruence. Qed.

Lemma store_no_hole (i : nat) (v : Cell) (b : Board) :
  i < length b -> v <> Hole ->
  Forall (fun c => c <> Hole) b ->
  Forall (fun c => c <> Hole) (store i v b).
Proof.
  intros Hi Hv Hb. revert i Hi.
  induction Hb as [|c t Hc Ht IH]; intros i Hi; simpl in Hi; [lia|].
  destruct i; simpl; constructor; auto. apply IH. lia.
Qed.

Lemma recorded_facts (h : list Move) (b : Board) :
  recorded h b ->
  replay h = b /\ length h = countMarks b /\ length b = 9 /\
  Forall (fun c => c <> Hole) b.
Proof.
  induction 1 as [|h b m Hrec (Hreplay & Hlen & Hb & Hholes) Hcell].
  - repeat split; auto. repeat constructor; discriminate.
  - pose proof (nth_error_Some_lt _ _ _ Hcell) as Hi.
    repeat split.
    + rewrite replay_snoc, Hreplay. reflexivity.
    + rewrite length_app, countMarks_store, Hlen by exact Hcell.
      simpl. lia.
    + rewrite store_length_inside; auto.
    + apply store_no_hole; auto. discriminate.
Qed.

Lemma recorded_inv (h : list Move) (m : Move) (b : Board) :
  recorded (h ++ [m]) b ->
  exists b0, recorded h b0 /\ nth_error b0 (index m) = Some Null /\
             b = store (index m) (Mark (player m)) b0.
Proof.
  intro H. inversion H as [Hnil | h1 b0 m1 Hrec Hcell Heq Hb].
  - destruct h; discriminate.
  - apply app_inj_tail in Heq. destruct Heq as [-> ->]. eauto.
Qed.

(** Popping the last recorded move and clearing its cell gives back the
    board the move was made on. *)
Lemma recorded_pop (h : list Move) (m : Move) (b : Board) :
  recorded (h ++ [m]) b -> recorded h (store (index m) Null b).
Proof.
  intro H. destruct (recorded_inv _ _ _ H) as (b0 & Hrec & Hcell & ->).
  rewrite (store_retract _ _ _ _ Hcell). exact Hrec.
Qed.

Lemma falsy_is_null (b : Board) (i : nat) :
  length b = 9 -> Forall (fun c => c <> Hole) b -> i < 9 ->
  truthy (get b i) = false -> nth_error b i = Some Null.
Proof.
  intros Hlen Hholes Hi Hfalsy.
  destruct (nth_error b i) as [c|] eqn:Hc.
  - rewrite (nth_error_get _ _ _ Hc) in Hfalsy.
    rewrite Forall_forall in Hholes.
    pose proof (Hholes c (nth_error_In _ _ Hc)).
    destruct c; simpl in *; congruence.
  - apply nth_error_None in Hc. lia.
Qed.

Lemma fill_null (b : Board) :
  length b = 9 -> map (fun _ => Null) b = emptyBoard.
Proof.
  intro H. do 10 (destruct b as [|? b]; simpl in H; try discriminate).
  reflexivity.
Qed.

Lemma recorded_makeMove (st : State) (i : nat) (p : Player) :
  recorded (moveHistory st) (board st) -> i < 9 ->
  recorded (moveHistory (fst (makeMove i p st)))
           (board (fst (makeMove i p st))).
Proof.
  intros Hrec Hi. unfold makeMove.
  destruct (truthy (get (board st) i)) eqn:Hcell; [exact Hrec |].
  destruct (gameOver st); [exact Hrec |].
  destruct (recorded_facts _ _ Hrec) as (_ & _ & Hlen & Hholes).
  pose proof (falsy_is_null _ _ Hlen Hholes Hi Hcell) as Hnull.
  pose proof (recorded_snoc _ _ (mkEntry i p) Hrec Hnull) as Hnext.
  simpl. cbn [setMoveHistory setBoard moveHistory board] .
  match goal with
  | |- context [if ?c then _ else _] =>
      destruct c; [| match goal with
                     | |- context [if ?d then _ else _] => destruct d
                     end]
  end; exact Hnext.
Qed.

Lemma recorded_undoMove (st : State) :
  recorded (moveHistory st) (board st) ->
  recorded (moveHistory (undoMove st)) (board (undoMove st)).
Proof.
  intro Hrec.
  destruct (gameOver st) eqn:Hover.
  { rewrite (undoMove_noop st (or_intror Hover)). exact Hrec. }
  destruct (moveHistory st) as [|e0 h0] eqn:Hhist.
  { rewrite (undoMove_noop st (or_introl Hhist)), Hhist. exact Hrec. }
  destruct (@exists_last _ (e0 :: h0)) as (h & m & Heq); [discriminate |].
  rewrite Heq in Hhist, Hrec. clear Heq.
  assert (Hone : recorded h (store (index m) Null (board st)))
    by (apply recorded_pop, Hrec).
  destruct (mode st) eqn:Hmode.
  - rewrite (undoMove_one st h m Hover Hhist (or_introl Hmode)). exact Hone.
  - destruct h as [|e1 h1].
    + rewrite (undoMove_one st [] m Hover Hhist (or_intror eq_refl)).
      exact Hone.
    + destruct (@exists_last _ (e1 :: h1)) as (h' & m' & Heq);
        [discriminate |].
      rewrite Heq in Hhist, Hone.
      rewrite (undoMove_two st h' m' m Hover Hhist Hmode).
      apply recorded_pop, Hone.
Qed.

Lemma recorded_newGame (st : State) :
  recorded (moveHistory st) (board st) ->
  recorded (moveHistory (newGame st)) (board (newGame st)).
Proof.
  intro Hrec. destruct (recorded_facts _ _ Hrec) as (_ & _ & Hlen & _).
  simpl. rewrite (fill_null _ Hlen). constructor.
Qed.

Lemma recorded_computerMove (rnd : Q) (st st' : State) (pending : bool) :
  recorded (moveHistory st) (board st) ->
  computerMove rnd st = Some (st', pending) ->
  recorded (moveHistory st') (board st').
Proof.
  intros Hrec Hmove.
  destruct (computerMove_makeMove rnd st _ Hmove) as (j & Hj & Heq).
  destruct (recorded_facts _ _ Hrec) as (_ & _ & Hlen & _).
  pose proof (nth_error_Some_lt _ _ _ Hj) as Hlt. rewrite Hlen in Hlt.
  replace st' with (fst (makeMove j O st)) by (rewrite <- Heq; reflexivity).
  apply recorded_makeMove; assumption.
Qed.

Lemma reachable_recorded (st : State) :
  reachable st -> recorded (moveHistory st) (board st).
Proof.
  induction 1.
  - constructor.
  - apply recorded_makeMove; assumption.
  - eapply recorded_computerMove; eassumption.
  - apply recorded_undoMove; assumption.
  - apply recorded_newGame; assumption.
  - apply (recorded_newGame (setScores (mkScores 0 0 0) st)); assumption.
  - apply (recorded_newGame (setMode m st)); assumption.
  - apply (recorded_newGame (setDifficulty d st)); assumption.
Qed.

End History.

(** C3: in every state reachable from the initial one by [makeMove]
    calls, undos and resets, replaying the recorded history in order on
    an empty board gives exactly the current board, and the history has
    as many entries as the board has marked cells. *)
Theorem history_replays_board (st : State) :
  reachable st ->
  replay (moveHistory st) = board st /\
  length (moveHistory st) = countMarks (board st).
Proof.
  intro Hreach.
  destruct (recorded_facts _ _ (reachable_recorded st Hreach))
    as (Hreplay & Hlen & _).
  split; assumption.
Qed.

Lemma undoneOnce_reachable : reachable undoneOnce.
Proof.
  unfold undoneOnce. repeat (constructor; try lia).
Qed.

Lemma history_replays_board_witness :
  reachable undoneOnce /\
  replay (moveHistory undoneOnce) = board undoneOnce /\
  length (moveHistory undoneOnce) = countMarks (board undoneOnce).
Proof.
  split; [exact undoneOnce_reachable |].
  exact (history_replays_board undoneOnce undoneOnce_reachable).
Defined.

(** ** Winning lines on reachable boards *)

Section Lines.

Lemma cell_eqb_eq (c d : Cell) : cell_eqb c d = true -> c = d.
Proof.
  destruct c as [| |[|]], d as [| |[|]]; simpl; congruence.
Qed.

(** A write of anything but [q]'s mark cannot complete a line for [q]. *)
Lemma checkWin_store (i : nat) (v : Cell) (q : Player) (b : Board) :
  v <> Mark q ->
  checkWinOnBoard (store i v b) q = true -> checkWinOnBoard b q = true.
Proof.
  intros Hv. unfold checkWinOnBoard.
  rewrite !existsb_exists. intros (comb & Hin & Hall).
  exists comb. split; [exact Hin |].
  rewrite forallb_forall in *. intros j Hj.
  specialize (Hall j Hj). unfold holds in *.
  destruct (Nat.eq_dec i j) as [<- | Hij].
  - rewrite get_store_same in Hall. apply cell_eqb_eq in Hall. contradiction.
  - rewrite get_store_other in Hall by exact Hij. exact Hall.
Qed.

Lemma checkWin_store_false (i : nat) (v : Cell) (q : Player) (b : Board) :
  v <> Mark q ->
  checkWinOnBoard b q = false -> checkWinOnBoard (store i v b) q = false.
Proof.
  intros Hv Hb. apply not_true_is_false. intro H.
  apply (checkWin_store i v q b Hv) in H. congruence.
Qed.

Lemma get_fill_null (b : Board) (j : nat) (q : Player) :
  holds (map (fun _ => Null) b) q j = false.
Proof.
  unfold holds, get. revert j.
  induction b as [|c t IH]; intros [|j]; simpl; auto.
Qed.

(** After [fill(null)] nobody has a line. *)
Lemma checkWin_fill_null (b : Board) (q : Player) :
  checkWinOnBoard (map (fun _ => Null) b) q = false.
Proof.
  unfold checkWinOnBoard, winPatterns. simpl.
  rewrite !get_fill_null. reflexivity.
Qed.

Lemma lines_makeMove (st : State) (i : nat) (p : Player) :
  linesInvariant st -> linesInvariant (fst (makeMove i p st)).
Proof.
  intros Hinv.
  destruct (truthy (get (board st) i)) eqn:Hcell;
    [unfold makeMove; rewrite Hcell; exact Hinv |].
  destruct (gameOver st) eqn:Hover;
    [unfold makeMove; rewrite Hover, orb_true_r; exact Hinv |].
  destruct Hinv as [Hquiet Hone]. specialize (Hquiet Hover).
  assert (Hopp : checkWinOnBoard (store i (Mark p) (board st)) (opponent p)
                 = false).
  { apply checkWin_store_false; [destruct p; discriminate | apply Hquiet]. }
  rewrite (makeMove_running st i p Hcell Hover). cbv zeta.
  destruct (checkWinOnBoard (store i (Mark p) (board st)) p) eqn:Hwin;
    [| destruct (everyCell (store i (Mark p) (board st)))];
    unfold linesInvariant; fields;
    (split; [| exists (opponent p); exact Hopp]);
    try discriminate.
  intros _ q. destruct p, q; assumption.
Qed.

Lemma lines_undoLoop (count : nat) :
  forall st,
    (forall q, checkWinOnBoard (board st) q = false) ->
    forall q, checkWinOnBoard (board (undoLoop count st)) q = false.
Proof.
  induction count as [|count IH]; intros st Hst q; simpl; [apply Hst |].
  destruct (pop (moveHistory st)) as [[m|] h]; apply IH; simpl; auto.
  intro q'. apply checkWin_store_false; [discriminate | apply Hst].
Qed.

Lemma lines_undoMove (st : State) :
  linesInvariant st -> linesInvariant (undoMove st).
Proof.
  intros Hinv. unfold undoMove.
  destruct (length (moveHistory st) =? 0); [exact Hinv |].
  destruct (gameOver st) eqn:Hover; [exact Hinv |].
  destruct Hinv as [Hquiet Hone]. simpl. specialize (Hquiet Hover).
  split; [intros _ q | exists X]; apply lines_undoLoop; exact Hquiet.
Qed.

Lemma lines_newGame (st : State) : linesInvariant (newGame st).
Proof.
  split; [intros _ q | exists X]; simpl; apply checkWin_fill_null.
Qed.

Lemma lines_computerMove (rnd : Q) (st st' : State) (pending : bool) :
  linesInvariant st ->
  computerMove rnd st = Some (st', pending) ->
  linesInvariant st'.
Proof.
  intros Hinv Hmove.
  destruct (computerMove_makeMove rnd st _ Hmove) as (j & _ & Heq).
  replace st' with (fst (makeMove j O st)) by (rewrite <- Heq; reflexivity).
  apply lines_makeMove, Hinv.
Qed.

Lemma reachable_lines (st : State) : reachable st -> linesInvariant st.
Proof.
  induction 1.
  - split; [intros _ [|] | exists X]; reflexivity.
  - apply lines_makeMove; assumption.
  - eapply lines_computerMove; eassumption.
  - apply lines_undoMove; assumption.
  - apply lines_newGame.
  - apply (lines_newGame (setScores (mkScores 0 0 0) st)).
  - apply (lines_newGame (setMode m st)).
  - apply (lines_newGame (setDifficulty d st)).
Qed.

End Lines.

Lemma played_reachable (st : State) : played st -> reachable st.
Proof.
  induction 1.
  - constructor.
  - unfold clickCell. constructor; assumption.
  - constructor; assumption.
Qed.

(** C8: on every reachable board, and so on every board that legal
    alternating play produces, X and O do not both have a completed win
    pattern: [checkWinOnBoard] (and [checkWin]) hold for at most one
    player. *)
Theorem at_most_one_winner (st : State) :
  reachable st \/ played st ->
  ~ (checkWinOnBoard (board st) X = true /\ checkWinOnBoard (board st) O = true)
  /\
  ~ (checkWin st X = true /\ checkWin st O = true).
Proof.
  intro H.
  assert (Hreach : reachable st)
    by (destruct H; [assumption | apply played_reachable; assumption]).
  destruct (reachable_lines st Hreach) as [_ [q Hq]].
  rewrite !checkWin_onBoard.
  split; intros [HX HO]; destruct q; congruence.
Qed.

Lemma topRowWon_played : played topRowWon.
Proof.
  unfold topRowWon. repeat (constructor; try lia).
Qed.

Lemma at_most_one_winner_witness :
  played topRowWon /\
  checkWinOnBoard (board topRowWon) X = true /\
  ~ (checkWinOnBoard (board topRowWon) X = true /\
     checkWinOnBoard (board topRowWon) O = true).
Proof.
  split; [exact topRowWon_played |]. split; [reflexivity |].
  exact (proj1 (at_most_one_winner topRowWon (or_intror topRowWon_played))).
Defined.

(** ** Playing against the unbeatable computer *)

Section Unbeatable.

Lemma makeMove_difficulty (i : nat) (p : Player) (st : State) :
  difficulty (fst (makeMove i p st)) = difficulty st.
Proof.
  unfold makeMove.
  destruct (truthy (get (board st) i) || gameOver st); [reflexivity |].
  cbn [fst].
  repeat match goal with
         | |- context [if ?c then _ else _] => destruct c
         end; reflexivity.
Qed.

(** The random sample is not consulted at the "unbeatable" setting. *)
Lemma computerMove_unbeatable (rnd : Q) (st : State) :
  difficulty st = unbeatable -> computerMove rnd st = computerMove 0%Q st.
Proof. intro H. unfold computerMove. rewrite H. reflexivity. Qed.

Lemma computerMove_difficulty (rnd : Q) (st st' : State) (pending : bool) :
  difficulty st = unbeatable ->
  computerMove rnd st = Some (st', pending) ->
  difficulty st' = unbeatable.
Proof.
  intros Hd. unfold computerMove, getBestMove. rewrite Hd.
  destruct (minimax _ _ _ _ _) as [[m b']|]; [| discriminate].
  destruct (Search.index m) as [j|]; [| discriminate].
  intro H. injection H as H.
  apply (f_equal fst) in H. cbn [fst] in H.
  rewrite <- H, makeMove_difficulty. exact Hd.
Qed.

Lemma settle_unbeatable (rnd : Q) (fuel : nat) :
  forall st pending,
    difficulty st = unbeatable ->
    settle fuel rnd st pending = settle fuel 0%Q st pending.
Proof.
  induction fuel as [|fuel IH]; intros st [|] Hd; simpl; try reflexivity.
  rewrite (computerMove_unbeatable rnd st Hd).
  destruct (computerMove 0%Q st) as [[st' pending']|] eqn:Hc; [| reflexivity].
  apply IH. exact (computerMove_difficulty _ _ _ _ Hd Hc).
Qed.

Lemma turn_unbeatable (rnd : Q) (i : nat) (st : State) :
  difficulty st = unbeatable -> turn rnd i st = turn 0%Q i st.
Proof.
  intro Hd. unfold turn, clickCell.
  pose proof (makeMove_difficulty i (currentPlayer st) st) as Hd'.
  destruct (makeMove i (currentPlayer st) st) as [st1 pending].
  apply settle_unbeatable. simpl in Hd'. congruence.
Qed.

(** A click that [makeMove] turns down changes nothing and triggers
    nothing. *)
Lemma turn_rejected (rnd : Q) (i : nat) (st : State) :
  legalClick i st = false -> turn rnd i st = Some st.
Proof.
  unfold legalClick, turn, clickCell, makeMove. intro H.
  apply negb_false_iff in H. rewrite H. reflexivity.
Qed.

Lemma safe_unfold (n : nat) (st : State) :
  safe n st =
  good st
  && forallb
       (fun i =>
          if legalClick i st then
            match n with
            | 0 => false
            | S n' =>
                match turn 0%Q i st with
                | Some st' => safe n' st'
                | None => false
                end
            end
          else true)
       (seq 0 9).
Proof. destruct n; reflexivity. Qed.

Lemma safe_good (n : nat) (st : State) : safe n st = true -> good st = true.
Proof.
  rewrite safe_unfold. intro H. apply andb_true_iff in H. tauto.
Qed.

Lemma good_difficulty (st : State) :
  good st = true -> difficulty st = unbeatable.
Proof.
  unfold good. rewrite !andb_true_iff. intros [[[H _] _] _].
  destruct (difficulty st); [discriminate | reflexivity].
Qed.

Lemma safe_step (n : nat) (st : State) (i : nat) :
  safe n st = true -> i < 9 -> legalClick i st = true ->
  exists n' st', turn 0%Q i st = Some st' /\ safe n' st' = true.
Proof.
  intros Hsafe Hi Hlegal.
  assert (Hin : In i (seq 0 9)) by (apply in_seq; lia).
  rewrite safe_unfold in Hsafe. apply andb_true_iff in Hsafe.
  destruct Hsafe as [_ Hall]. rewrite forallb_forall in Hall.
  specialize (Hall i Hin). cbv beta in Hall. rewrite Hlegal in Hall.
  destruct n as [|n]; [discriminate |].
  destruct (turn 0%Q i st) as [st'|]; [| discriminate].
  exists n, st'. split; [reflexivity | exact Hall].
Qed.

Lemma safe_sound (clicks : list (nat * Q)) :
  forall n st,
    safe n st = true ->
    Forall (fun c => fst c < 9) clicks ->
    exists st', play clicks st = Some st' /\ good st' = true.
Proof.
  induction clicks as [|[i rnd] rest IH]; intros n st Hsafe Hclicks.
  - exists st. split; [reflexivity | exact (safe_good n st Hsafe)].
  - inversion Hclicks as [|? ? Hi Hrest]; subst. simpl in Hi.
    cbn [play].
    destruct (legalClick i st) eqn:Hlegal.
    + rewrite (turn_unbeatable rnd i st
                 (good_difficulty st (safe_good n st Hsafe))).
      destruct (safe_step n st i Hsafe Hi Hlegal) as (n' & st' & Hturn & Hsafe').
      rewrite Hturn. exact (IH n' st' Hsafe' Hrest).
    + rewrite (turn_rejected rnd i st Hlegal).
      exact (IH n st Hsafe Hrest).
Qed.

(** Every line of play from the start position passes the check. *)
Lemma safe_from_start : safe 5 versusUnbeatable = true.
Proof. vm_compute. reflexivity. Qed.

End Unbeatable.

(** C1: from the empty board with X to move, whatever cells X clicks on
    (clicks that [makeMove] turns down included), with every O move
    chosen by [getBestMove], play is always defined, X never has a
    completed line, X's tally stays at zero, and once the game is over
    [minimax] scores the final board with a terminal score of at least
    zero: a draw or a win for O. *)
Theorem unbeatable_never_loses (clicks : list (nat * Q)) :
  Forall (fun c => fst c < 9) clicks ->
  exists st,
    play clicks versusUnbeatable = Some st /\
    checkWinOnBoard (board st) X = false /\
    checkWin st X = false /\
    scoreX (scores st) = 0%Z /\
    (gameOver st = true ->
     exists r,
       minimax (S (length (board st))) (board st) O NegInf PosInf
       = Some (r, board st) /\
       Search.index r = None /\ (0 <= score r)%Z).
Proof.
  intro Hclicks.
  destruct (safe_sound clicks 5 versusUnbeatable safe_from_start Hclicks)
    as (st & Hplay & Hgood).
  exists st. split; [exact Hplay |].
  unfold good in Hgood. rewrite !andb_true_iff in Hgood.
  destruct Hgood as [[[_ HX] Hscore] Hterm].
  apply negb_true_iff in HX. apply Z.eqb_eq in Hscore.
  rewrite checkWin_onBoard.
  repeat split; auto.
  intro Hover. rewrite Hover in Hterm. unfold terminalScoreOk in Hterm.
  destruct (minimax_returns (S (length (board st))) (board st) O NegInf PosInf)
    as [r Hr].
  { pose proof (countNull_le_length (board st)). lia. }
  rewrite Hr in Hterm. exists r. split; [exact Hr |].
  destruct (Search.index r); [discriminate |].
  split; [reflexivity | apply Z.leb_le, Hterm].
Qed.

Lemma unbeatable_never_loses_witness :
  Forall (fun c => fst c < 9) sweep /\
  exists st,
    play sweep versusUnbeatable = Some st /\
    checkWinOnBoard (board st) X = false /\
    checkWin st X = false /\
    scoreX (scores st) = 0%Z /\
    (gameOver st = true ->
     exists r,
       minimax (S (length (board st))) (board st) O NegInf PosInf
       = Some (r, board st) /\
       Search.index r = None /\ (0 <= score r)%Z).
Proof.
  assert (H : Forall (fun c => fst c < 9) sweep)
    by (unfold sweep; repeat constructor).
  split; [exact H | exact (unbeatable_never_loses sweep H)].
Defined.

(** * Further properties of the search *)

(** ** The scores the search returns *)

Section ScoreRange.

Variable rec : Board -> Player -> num -> num -> option (move * Board).

Hypothesis rec_range :
  forall b p alpha beta r b',
    rec b p alpha beta = Some (r, b') -> terminalScore (score r).

Lemma explore_scores (p : Player) (cells : list nat) :
  forall b alpha beta moves res b',
    explore rec p cells b alpha beta moves = Some (res, b') ->
    Forall (fun m => terminalScore (score m)) moves ->
    Forall (fun m => terminalScore (score m)) res.
Proof.
  induction cells as [|c rest IH];
    intros b alpha beta moves res b' Hexp Hmoves; simpl in Hexp.
  - injection Hexp as <- _. exact Hmoves.
  - destruct (rec (store c (Mark p) b) (opponent p) alpha beta)
      as [[r b2]|] eqn:Hrec; [| discriminate].
    assert (Hnext : Forall (fun m => terminalScore (score m))
                           (moves ++ [mkMove (Some c) (score r)])).
    { apply Forall_app. split; [exact Hmoves |].
      constructor; [exact (rec_range _ _ _ _ _ _ Hrec) | constructor]. }
    match type of Hexp with
    | (if ?g then _ else _) = _ => destruct g
    end.
    + injection Hexp as <- _. exact Hnext.
    + exact (IH _ _ _ _ _ _ Hexp Hnext).
Qed.

End ScoreRange.

(** X1: whatever the board, the player and the window, the score of the
    object [minimax] returns is -10, 0 or 10: the depth of a win never
    enters the score. *)
Theorem minimax_score_range (fuel : nat) :
  forall b p alpha beta r b',
    minimax fuel b p alpha beta = Some (r, b') ->
    score r = (-10)%Z \/ score r = 0%Z \/ score r = 10%Z.
Proof.
  induction fuel as [|fuel IH]; intros b p alpha beta r b'; [discriminate |].
  simpl.
  destruct (checkWinOnBoard b X);
    [intro H; injection H as <- _; left; reflexivity |].
  destruct (checkWinOnBoard b O);
    [intro H; injection H as <- _; right; right; reflexivity |].
  destruct (length (emptyCellsOf b) =? 0);
    [intro H; injection H as <- _; right; left; reflexivity |].
  destruct (explore (minimax fuel) p (emptyCellsOf b) b alpha beta [])
    as [[moves b'']|] eqn:Hexp; [| discriminate].
  destruct (selectBest p moves) as [k|]; [| discriminate].
  destruct (nth_error moves k) as [m|] eqn:Hk; [| discriminate].
  intro H. injection H as <- _.
  pose proof (explore_scores (minimax fuel) IH p _ _ _ _ _ _ _ Hexp
                             (Forall_nil _)) as Hall.
  rewrite Forall_forall in Hall.
  exact (Hall m (nth_error_In _ _ Hk)).
Qed.

Lemma minimax_score_range_witness :
  exists r b',
    minimax 10 emptyBoard O NegInf PosInf = Some (r, b') /\
    (score r = (-10)%Z \/ score r = 0%Z \/ score r = 10%Z).
Proof.
  destruct (minimax 10 emptyBoard O NegInf PosInf) as [[r b']|] eqn:H;
    [| vm_compute in H; discriminate].
  exists r, b'. split; [reflexivity |].
  exact (minimax_score_range 10 emptyBoard O NegInf PosInf r b' H).
Defined.

(** ** Pruning against exhaustive search *)

Ltac window :=
  unfold bounds, num_lt, num_le, num_geb, num_max, num_min, num_leb,
         pick, better, noWorse in *;
  repeat match goal with
         | n : num |- _ => destruct n
         end;
  simpl in *;
  repeat match goal with
         | H : context [(?x <=? ?y)%Z] |- _ => destruct (Z.leb_spec x y)
         | |- context [(?x <=? ?y)%Z] => destruct (Z.leb_spec x y)
         end;
  simpl in *; try discriminate; try tauto; try lia.

Section WindowArithmetic.

Lemma num_geb_false (a b : num) : num_geb a b = false -> num_lt a b.
Proof. window. Qed.

Lemma bounds_refl (s : Z) (alpha beta : num) : bounds s s alpha beta.
Proof. window. Qed.

(** The loop stops: the score that closed the window bounds the score of
    the whole node from the mover's side. *)
Lemma window_break (p : Player) (alpha beta : num) (s1 v1 V : Z) :
  num_lt alpha beta ->
  bounds s1 v1 alpha beta ->
  num_geb (match p with O => num_max alpha (Fin s1) | X => alpha end)
          (match p with O => beta | X => num_min beta (Fin s1) end) = true ->
  noWorse p V v1 ->
  bounds s1 V alpha beta.
Proof. destruct p; window. Qed.

(** The loop goes on with the narrowed window. *)
Lemma window_narrow (p : Player) (alpha beta : num) (s1 : Z) :
  num_geb (match p with O => num_max alpha (Fin s1) | X => alpha end)
          (match p with O => beta | X => num_min beta (Fin s1) end) = false ->
  num_lt (match p with O => num_max alpha (Fin s1) | X => alpha end)
         (match p with O => beta | X => num_min beta (Fin s1) end).
Proof. apply num_geb_false. Qed.

Lemma window_combine (p : Player) (alpha beta : num) (s1 v1 S' V' : Z) :
  num_lt alpha beta ->
  bounds s1 v1 alpha beta ->
  num_geb (match p with O => num_max alpha (Fin s1) | X => alpha end)
          (match p with O => beta | X => num_min beta (Fin s1) end) = false ->
  bounds S' V'
         (match p with O => num_max alpha (Fin s1) | X => alpha end)
         (match p with O => beta | X => num_min beta (Fin s1) end) ->
  bounds (pick p s1 S') (pick p v1 V') alpha beta.
Proof. destruct p; window. Qed.

(** A later score that beats [s1] and lies inside the window lies inside
    the narrowed window too. *)
Lemma window_inside (p : Player) (alpha beta : num) (s1 t : Z) :
  better p t s1 ->
  num_lt alpha (Fin t) -> num_lt (Fin t) beta ->
  num_lt (match p with O => num_max alpha (Fin s1) | X => alpha end) (Fin t) /\
  num_lt (Fin t) (match p with O => beta | X => num_min beta (Fin s1) end).
Proof. destruct p; window. Qed.

Lemma bounds_exact (s v : Z) (alpha beta : num) :
  bounds s v alpha beta ->
  num_lt alpha (Fin s) -> num_lt (Fin s) beta -> v = s.
Proof. intros (_ & _ & H). exact H. Qed.

Lemma best_head (p : Player) (x : Z) (l : list Z) : noWorse p (best p x l) x.
Proof. destruct l; simpl; destruct p; simpl; lia. Qed.

Lemma best_noWorse (p : Player) (l : list Z) :
  forall x y, In y (x :: l) -> noWorse p (best p x l) y.
Proof.
  induction l as [|z t IH]; intros x y Hin.
  - destruct Hin as [<- | []]. simpl. destruct p; simpl; lia.
  - simpl best. destruct Hin as [<- | Hin].
    + destruct p; simpl; lia.
    + specialize (IH z y Hin). destruct p; simpl in *; lia.
Qed.

Lemma best_in (p : Player) (l : list Z) :
  forall x, In (best p x l) (x :: l).
Proof.
  induction l as [|z t IH]; intro x; [left; reflexivity |].
  simpl best. specialize (IH z).
  assert (H : pick p x (best p z t) = x \/ pick p x (best p z t) = best p z t)
    by (destruct p; simpl; lia).
  destruct H as [-> | ->]; [left; reflexivity | right; exact IH].
Qed.

Lemma noWorse_antisym (p : Player) (a b : Z) :
  noWorse p a b -> noWorse p b a -> a = b.
Proof. destruct p; simpl; lia. Qed.

End WindowArithmetic.

Section AlphaBeta.

Variable rec : Board -> Player -> num -> num -> option (move * Board).
Variable val : Board -> Player -> Z.

Hypothesis rec_frame :
  forall b p alpha beta r b', rec b p alpha beta = Some (r, b') -> b' = b.

Hypothesis rec_bounds :
  forall b p alpha beta r b',
    num_lt alpha beta ->
    rec b p alpha beta = Some (r, b') ->
    bounds (score r) (val b p) alpha beta.

Lemma explore_cons (p : Player) (c : nat) (rest : list nat) (b : Board)
      (alpha beta : num) (moves : list move) :
  explore rec p (c :: rest) b alpha beta moves =
  match rec (store c (Mark p) b) (opponent p) alpha beta with
  | None => None
  | Some (result, b2) =>
      if num_geb
           (match p with O => num_max alpha (Fin (score result)) | X => alpha end)
           (match p with O => beta | X => num_min beta (Fin (score result)) end)
      then Some (moves ++ [mkMove (Some c) (score result)], store c Null b2)
      else explore rec p rest (store c Null b2)
             (match p with O => num_max alpha (Fin (score result)) | X => alpha end)
             (match p with O => beta | X => num_min beta (Fin (score result)) end)
             (moves ++ [mkMove (Some c) (score result)])
  end.
Proof. reflexivity. Qed.

(** The loop over the empty cells [c :: rest] of [b]: the preferred
    score among the evaluated moves is related to the preferred score
    among all children by the window the loop was entered with; and an
    evaluated move that beats all moves evaluated before it, with a
    score inside the window, has exactly the score of its child. *)
Lemma explore_bounds (p : Player) (b : Board) (rest : list nat) :
  forall c alpha beta moves res b',
    num_lt alpha beta ->
    Forall (fun c' => nth_error b c' = Some Null) (c :: rest) ->
    explore rec p (c :: rest) b alpha beta moves = Some (res, b') ->
    exists m ev,
      res = moves ++ m :: ev /\
      bounds (best p (score m) (map score ev))
             (best p (val (store c (Mark p) b) (opponent p))
                   (map (fun c' => val (store c' (Mark p) b) (opponent p)) rest))
             alpha beta /\
      (forall j mj cj,
          nth_error (m :: ev) j = Some mj ->
          nth_error (c :: rest) j = Some cj ->
          (forall i mi, i < j -> nth_error (m :: ev) i = Some mi ->
                        better p (score mj) (score mi)) ->
          num_lt alpha (Fin (score mj)) -> num_lt (Fin (score mj)) beta ->
          val (store cj (Mark p) b) (opponent p) = score mj).
Proof.
  induction rest as [|c2 rest IH];
    intros c alpha beta moves res b' Hlt Hcells Hexp;
    rewrite explore_cons in Hexp;
    inversion Hcells as [|? ? Hc Hrest]; subst;
    destruct (rec (store c (Mark p) b) (opponent p) alpha beta)
      as [[r b2]|] eqn:Hrec; try discriminate;
    pose proof (rec_frame _ _ _ _ _ _ Hrec) as Hb2; subst b2;
    pose proof (rec_bounds _ _ _ _ _ _ Hlt Hrec) as Hb1;
    rewrite (store_retract c (Mark p) Null b Hc) in Hexp.
  - (* a single cell: the loop ends after it either way *)
    assert (Hres : res = moves ++ [mkMove (Some c) (score r)]).
    { destruct (num_geb _ _); simpl in Hexp; congruence. }
    exists (mkMove (Some c) (score r)), []. split; [exact Hres |].
    split; [exact Hb1 |].
    intros [|j] mj cj Hmj Hcj _ Hlo Hhi; simpl in Hmj, Hcj.
    + injection Hmj as <-. injection Hcj as <-.
      exact (bounds_exact _ _ _ _ Hb1 Hlo Hhi).
    + destruct j; discriminate.
  - destruct (num_geb
                (match p with O => num_max alpha (Fin (score r)) | X => alpha end)
                (match p with O => beta | X => num_min beta (Fin (score r)) end))
      eqn:Hgeb.
    + (* the window closes: the remaining cells are cut off *)
      injection Hexp as <- _.
      exists (mkMove (Some c) (score r)), []. split; [reflexivity |].
      split.
      * apply (window_break p alpha beta _ _ _ Hlt Hb1 Hgeb).
        apply best_head.
      * intros [|j] mj cj Hmj Hcj _ Hlo Hhi; simpl in Hmj, Hcj.
        -- injection Hmj as <-. injection Hcj as <-.
           exact (bounds_exact _ _ _ _ Hb1 Hlo Hhi).
        -- destruct j; discriminate.
    + destruct (IH c2 _ _ _ _ _ (window_narrow p alpha beta _ Hgeb) Hrest Hexp)
        as (m2 & ev & Hres & Hrec_bounds & Hexact).
      exists (mkMove (Some c) (score r)), (m2 :: ev).
      split; [rewrite Hres, <- app_assoc; reflexivity |].
      split.
      * exact (window_combine p alpha beta _ _ _ _ Hlt Hb1 Hgeb Hrec_bounds).
      * intros [|j] mj cj Hmj Hcj Hbefore Hlo Hhi.
        -- simpl in Hmj, Hcj. injection Hmj as <-. injection Hcj as <-.
           exact (bounds_exact _ _ _ _ Hb1 Hlo Hhi).
        -- change (nth_error (m2 :: ev) j = Some mj) in Hmj.
           change (nth_error (c2 :: rest) j = Some cj) in Hcj.
           assert (Hfirst : better p (score mj) (score r)).
           { apply (Hbefore 0 (mkMove (Some c) (score r))); [lia | reflexivity]. }
           destruct (window_inside p alpha beta _ _ Hfirst Hlo Hhi)
             as [Hlo' Hhi'].
           apply (Hexact j mj cj Hmj Hcj); auto.
           intros i mi Hi Hmi. apply (Hbefore (S i) mi); [lia | exact Hmi].
Qed.

End AlphaBeta.

Section PrunedSearch.

(** The move the scan selects has the preferred score of the list. *)
Lemma selected_score (p : Player) (m : move) (ev : list move)
      (k : nat) (mk : move) :
  selectBest p (m :: ev) = Some k ->
  nth_error (m :: ev) k = Some mk ->
  score mk = best p (score m) (map score ev).
Proof.
  intros Hsel Hk.
  destruct (selectBest_spec p (m :: ev)) as (k' & m' & Hsel' & Hk' & _ & Hmax);
    [discriminate |].
  rewrite Hsel in Hsel'. injection Hsel' as <-.
  rewrite Hk in Hk'. injection Hk' as <-.
  apply (noWorse_antisym p).
  - destruct (best_in p (map score ev) (score m)) as [Heq | Hin].
    + rewrite <- Heq. apply Hmax. left. reflexivity.
    + apply in_map_iff in Hin. destruct Hin as (m'' & Heq & Hin).
      rewrite <- Heq. apply Hmax. right. exact Hin.
  - apply best_noWorse.
    change (score m :: map score ev) with (map score (m :: ev)).
    apply in_map. exact (nth_error_In _ _ Hk).
Qed.

Lemma exhaustive_unfold (fuel : nat) (b : Board) (p : Player) :
  exhaustive (S fuel) b p =
  if checkWinOnBoard b X then (-10)%Z
  else if checkWinOnBoard b O then 10%Z
  else
    match emptyCellsOf b with
    | [] => 0%Z
    | c :: rest =>
        best p (exhaustive fuel (store c (Mark p) b) (opponent p))
             (map (fun c' => exhaustive fuel (store c' (Mark p) b) (opponent p))
                  rest)
    end.
Proof. reflexivity. Qed.

Lemma minimax_unfold (fuel : nat) (b : Board) (p : Player) (alpha beta : num) :
  minimax (S fuel) b p alpha beta =
  if checkWinOnBoard b X then Some (mkMove None (-10)%Z, b)
  else if checkWinOnBoard b O then Some (mkMove None 10%Z, b)
  else if length (emptyCellsOf b) =? 0 then Some (mkMove None 0%Z, b)
  else
    match explore (minimax fuel) p (emptyCellsOf b) b alpha beta [] with
    | None => None
    | Some (moves, b') =>
        match selectBest p moves with
        | None => None
        | Some bestMove =>
            match nth_error moves bestMove with
            | None => None
            | Some m => Some (m, b')
            end
        end
    end.
Proof. reflexivity. Qed.

(** Whatever the fuel, a score that [minimax] returns for a window
    [alpha < beta] is related by that window to the exhaustive score
    computed with the same fuel. *)
Lemma alphabeta_fuel (fuel : nat) :
  forall b p alpha beta r b',
    num_lt alpha beta ->
    minimax fuel b p alpha beta = Some (r, b') ->
    bounds (score r) (exhaustive fuel b p) alpha beta.
Proof.
  induction fuel as [|fuel IH]; intros b p alpha beta r b' Hlt;
    [discriminate |].
  rewrite minimax_unfold, exhaustive_unfold.
  destruct (checkWinOnBoard b X);
    [intro H; injection H as <- _; apply bounds_refl |].
  destruct (checkWinOnBoard b O);
    [intro H; injection H as <- _; apply bounds_refl |].
  pose proof (emptyCells_all_null b) as Hcells.
  destruct (emptyCellsOf b) as [|c rest];
    [intro H; injection H as <- _; apply bounds_refl |].
  cbn [length Nat.eqb].
  destruct (explore (minimax fuel) p (c :: rest) b alpha beta [])
    as [[moves b'']|] eqn:Hexp; [| discriminate].
  destruct (explore_bounds (minimax fuel) (exhaustive fuel)
              (fun b0 p0 a0 b1 r0 b0' => minimax_frame fuel b0 b0' p0 a0 b1 r0)
              IH p b rest c alpha beta [] moves b''
              Hlt Hcells Hexp)
    as (m & ev & Hres & Hbounds & _).
  simpl in Hres. subst moves.
  destruct (selectBest p (m :: ev)) as [k|] eqn:Hsel; [| discriminate].
  destruct (nth_error (m :: ev) k) as [mk|] eqn:Hk; [| discriminate].
  intro H. injection H as <- _.
  rewrite (selected_score p m ev k mk Hsel Hk). exact Hbounds.
Qed.

(** With fuel for every empty cell, the exhaustive score no longer
    depends on the fuel. *)
Lemma exhaustive_enough (fuel : nat) :
  forall fuel' b p,
    countNull b < fuel -> countNull b < fuel' ->
    exhaustive fuel b p = exhaustive fuel' b p.
Proof.
  induction fuel as [|fuel IH]; intros fuel' b p H1 H2; [lia |].
  destruct fuel' as [|fuel']; [lia |].
  rewrite !exhaustive_unfold.
  destruct (checkWinOnBoard b X); [reflexivity |].
  destruct (checkWinOnBoard b O); [reflexivity |].
  pose proof (emptyCells_all_null b) as Hcells.
  destruct (emptyCellsOf b) as [|c rest]; [reflexivity |].
  assert (Hchild : forall c', nth_error b c' = Some Null ->
            exhaustive fuel (store c' (Mark p) b) (opponent p)
            = exhaustive fuel' (store c' (Mark p) b) (opponent p)).
  { intros c' Hc'. pose proof (countNull_store_mark c' p b Hc').
    apply IH; lia. }
  inversion Hcells as [|? ? Hc Hrest]; subst.
  rewrite (Hchild c Hc). f_equal.
  apply map_ext_in. intros c' Hin.
  rewrite Forall_forall in Hrest. exact (Hchild c' (Hrest c' Hin)).
Qed.

Lemma gameValue_fuel (fuel : nat) (b : Board) (p : Player) :
  countNull b < fuel -> exhaustive fuel b p = gameValue b p.
Proof. intro H. unfold gameValue. apply exhaustive_enough; lia. Qed.

End PrunedSearch.

(** X2: pruning does not falsify the score.  For every board, player and
    window [alpha < beta], [minimax] returns a score that is an upper
    bound of the exhaustive minimax score when it is at most [alpha], a
    lower bound when it is at least [beta], and the exhaustive score
    itself when it lies strictly inside the window; with the window
    [(-Infinity, Infinity)] of [getBestMove] it is the exhaustive score. *)
Theorem pruning_keeps_score (fuel : nat) (b : Board) (p : Player)
        (alpha beta : num) :
  countNull b < fuel ->
  num_lt alpha beta ->
  (exists r, minimax fuel b p alpha beta = Some (r, b) /\
             bounds (score r) (gameValue b p) alpha beta) /\
  (exists r, minimax fuel b p NegInf PosInf = Some (r, b) /\
             score r = gameValue b p).
Proof.
  intros Hfuel Hlt. split.
  - destruct (minimax_returns fuel b p alpha beta Hfuel) as [r Hr].
    exists r. split; [exact Hr |].
    rewrite <- (gameValue_fuel fuel b p Hfuel).
    exact (alphabeta_fuel fuel b p alpha beta r b Hlt Hr).
  - destruct (minimax_returns fuel b p NegInf PosInf Hfuel) as [r Hr].
    exists r. split; [exact Hr |].
    rewrite <- (gameValue_fuel fuel b p Hfuel).
    assert (Hfull : num_lt NegInf PosInf) by (intro H; exact H).
    pose proof (alphabeta_fuel fuel b p NegInf PosInf r b Hfull Hr)
      as (_ & _ & Hexact).
    symmetry. apply Hexact; intro H; exact H.
Qed.

Lemma pruning_keeps_score_witness :
  (exists r, minimax 10 (store 4 (Mark X) emptyBoard) O (Fin (-10)) (Fin 0)
             = Some (r, store 4 (Mark X) emptyBoard) /\
             bounds (score r) (gameValue (store 4 (Mark X) emptyBoard) O)
                    (Fin (-10)) (Fin 0)) /\
  (exists r, minimax 10 (store 4 (Mark X) emptyBoard) O NegInf PosInf
             = Some (r, store 4 (Mark X) emptyBoard) /\
             score r = gameValue (store 4 (Mark X) emptyBoard) O).
Proof.
  apply (pruning_keeps_score 10 (store 4 (Mark X) emptyBoard) O
                             (Fin (-10)) (Fin 0)).
  - vm_compute; lia.
  - unfold num_lt, num_le. lia.
Defined.

(** X3: the move the search picks is a best move.  On a board that is
    not terminal, [minimax] with the full window returns the index of an
    empty cell, and the exhaustive score of the position reached by
    marking that cell equals the exhaustive score of the position itself
    (the maximum over all moves for O, the minimum for X); [getBestMove]
    returns such a cell for O. *)
Theorem best_move_is_optimal (fuel : nat) (b : Board) (p : Player) :
  countNull b <= fuel ->
  checkWinOnBoard b X = false ->
  checkWinOnBoard b O = false ->
  emptyCellsOf b <> [] ->
  (exists m c,
      minimax (S fuel) b p NegInf PosInf = Some (m, b) /\
      Search.index m = Some c /\
      nth_error b c = Some Null /\
      score m = gameValue b p /\
      gameValue (store c (Mark p) b) (opponent p) = gameValue b p) /\
  (forall st, board st = b ->
      exists c,
        getBestMove st = Some (Some c, st) /\
        nth_error b c = Some Null /\
        gameValue (store c (Mark O) b) X = gameValue b O).
Proof.
  intros Hfuel HX HO Hne.
  assert (Hmain : forall fuel' q, countNull b <= fuel' ->
            exists m c,
              minimax (S fuel') b q NegInf PosInf = Some (m, b) /\
              Search.index m = Some c /\
              nth_error b c = Some Null /\
              score m = gameValue b q /\
              gameValue (store c (Mark q) b) (opponent q) = gameValue b q).
  { clear fuel Hfuel. intros fuel q Hfuel.
    destruct (minimax_root fuel b q NegInf PosInf Hfuel HX HO Hne)
      as (moves & k & m & Hexp & Hidx & Hmoves & Hsel & Hnth & Hres).
    assert (Hfull : num_lt NegInf PosInf) by (intro H; exact H).
    pose proof (emptyCells_all_null b) as Hcells.
    destruct (emptyCellsOf b) as [|c0 rest] eqn:Hempty; [congruence |].
    destruct (explore_bounds (minimax fuel) (exhaustive fuel)
                (fun b0 p0 a0 b1 r0 b0' => minimax_frame fuel b0 b0' p0 a0 b1 r0)
                (alphabeta_fuel fuel) q b rest c0 NegInf PosInf [] moves b
                Hfull Hcells Hexp)
      as (m1 & ev & Hres' & _ & Hexact).
    simpl in Hres'. subst moves.
    destruct (selectBest_spec q (m1 :: ev) Hmoves)
      as (k' & m' & Hsel' & Hnth' & Hbefore & _).
    rewrite Hsel in Hsel'. injection Hsel' as <-.
    rewrite Hnth in Hnth'. injection Hnth' as <-.
    destruct (evaluated_index (m1 :: ev) (c0 :: rest) k m Hidx Hnth)
      as (c & Hc & Hck).
    assert (Hnull : nth_error b c = Some Null).
    { rewrite Forall_forall in Hcells. apply Hcells.
      exact (nth_error_In _ _ Hck). }
    assert (Hscore : score m = gameValue b q).
    { rewrite <- (gameValue_fuel (S fuel) b q) by lia.
      pose proof (alphabeta_fuel (S fuel) b q NegInf PosInf m b Hfull Hres)
        as (_ & _ & Hex).
      symmetry. apply Hex; intro H; exact H. }
    exists m, c. repeat split; auto.
    rewrite <- Hscore.
    rewrite <- (gameValue_fuel fuel (store c (Mark q) b) (opponent q)).
    - apply (Hexact k m c Hnth Hck).
      + intros i mi Hi Hmi. exact (Hbefore i mi Hi Hmi).
      + intro H; exact H.
      + intro H; exact H.
    - pose proof (countNull_store_mark c q b Hnull). lia. }
  split; [exact (Hmain fuel p Hfuel) |].
  intros st Hst. unfold getBestMove. rewrite Hst.
  destruct (Hmain (length b) O (countNull_le_length b))
    as (m & c & Hres & Hc & Hnull & _ & Hval).
  rewrite Hres, Hc. exists c. repeat split; auto.
  rewrite <- Hst. destruct st; reflexivity.
Qed.

Lemma best_move_is_optimal_witness :
  exists c,
    getBestMove midGame = Some (Some c, midGame) /\
    nth_error (board midGame) c = Some Null /\
    gameValue (store c (Mark O) (board midGame)) X
    = gameValue (board midGame) O.
Proof.
  assert (H : countNull (board midGame) <= 9) by (vm_compute; lia).
  destruct (best_move_is_optimal 9 (board midGame) O H eq_refl eq_refl)
    as [_ Hbest]; [discriminate |].
  exact (Hbest midGame eq_refl).
Defined.

(** * Further properties of the game state *)

(** ** The game-over flag *)

Section TerminalFlag.

Lemma everyCell_store_null (i : nat) (b : Board) :
  everyCell (store i Null b) = false.
Proof.
  unfold everyCell. revert b.
  induction i as [|i IH]; intros [|c t]; simpl; auto.
  rewrite IH. apply andb_false_r.
Qed.

Lemma everyCell_undoLoop (count : nat) :
  forall st,
    everyCell (board st) = false ->
    everyCell (board (undoLoop count st)) = false.
Proof.
  induction count as [|count IH]; intros st Hst; simpl; [exact Hst |].
  destruct (pop (moveHistory st)) as [[m|] h]; apply IH; simpl; auto.
  apply everyCell_store_null.
Qed.

Lemma isTerminal_false (b : Board) :
  isTerminal b = false ->
  checkWinOnBoard b X = false /\ checkWinOnBoard b O = false /\
  everyCell b = false.
Proof.
  unfold isTerminal. intro H.
  apply orb_false_iff in H. destruct H as [H Hfull].
  apply orb_false_iff in H. tauto.
Qed.

Lemma flag_makeMove (st : State) (i : nat) (p : Player) :
  gameOver st = isTerminal (board st) ->
  gameOver (fst (makeMove i p st)) = isTerminal (board (fst (makeMove i p st))).
Proof.
  intro Hflag.
  destruct (truthy (get (board st) i)) eqn:Hcell;
    [unfold makeMove; rewrite Hcell; exact Hflag |].
  destruct (gameOver st) eqn:Hover;
    [unfold makeMove; rewrite Hover, orb_true_r; simpl; congruence |].
  symmetry in Hflag. destruct (isTerminal_false _ Hflag) as (HX & HO & _).
  rewrite (makeMove_running st i p Hcell Hover). cbv zeta.
  destruct (checkWinOnBoard (store i (Mark p) (board st)) p) eqn:Hwin;
    [| destruct (everyCell (store i (Mark p) (board st))) eqn:Hfull];
    fields; unfold isTerminal.
  - destruct p; rewrite Hwin; [reflexivity |].
    rewrite orb_true_r. reflexivity.
  - rewrite Hfull. symmetry. apply orb_true_r.
  - rewrite Hfull, Hover.
    destruct p; rewrite Hwin.
    + rewrite (checkWin_store_false i (Mark X) O _ ltac:(discriminate) HO).
      reflexivity.
    + rewrite (checkWin_store_false i (Mark O) X _ ltac:(discriminate) HX).
      reflexivity.
Qed.

Lemma flag_undoMove (st : State) :
  gameOver st = isTerminal (board st) ->
  gameOver (undoMove st) = isTerminal (board (undoMove st)).
Proof.
  intro Hflag. unfold undoMove.
  destruct (length (moveHistory st) =? 0); [exact Hflag |].
  destruct (gameOver st) eqn:Hover; [simpl; congruence |].
  symmetry in Hflag. destruct (isTerminal_false _ Hflag) as (HX & HO & Hfull).
  simpl.
  match goal with
  | |- context [undoLoop ?c st] =>
      destruct (undoLoop_frame c st) as (_ & Hg & _); rewrite Hg, Hover;
      unfold isTerminal;
      rewrite (everyCell_undoLoop c st Hfull);
      rewrite !(lines_undoLoop c st)
  end; [reflexivity | |]; intros [|]; assumption.
Qed.

Lemma flag_newGame (st : State) :
  board st <> [] -> gameOver (newGame st) = isTerminal (board (newGame st)).
Proof.
  intro Hne. simpl. unfold isTerminal. rewrite !checkWin_fill_null.
  destruct (board st) as [|c t]; [congruence | reflexivity].
Qed.

Lemma recorded_nonempty (st : State) :
  recorded (moveHistory st) (board st) -> board st <> [].
Proof.
  intro Hrec. destruct (recorded_facts _ _ Hrec) as (_ & _ & Hlen & _).
  intro H. rewrite H in Hlen. discriminate.
Qed.

End TerminalFlag.

Lemma reachable_flag (st : State) :
  reachable st -> gameOver st = isTerminal (board st).
Proof.
  induction 1 as [| st i p Hreach IH Hi | st rnd st' pending Hreach IH Hmove
                  | st Hreach IH | st Hreach IH | st Hreach IH
                  | st m Hreach IH | st d Hreach IH].
  - reflexivity.
  - apply flag_makeMove, IH.
  - destruct (computerMove_makeMove rnd st _ Hmove) as (j & _ & Heq).
    replace st' with (fst (makeMove j O st)) by (rewrite <- Heq; reflexivity).
    apply flag_makeMove, IH.
  - apply flag_undoMove, IH.
  - apply flag_newGame, recorded_nonempty, reachable_recorded, Hreach.
  - apply (flag_newGame (setScores (mkScores 0 0 0) st)).
    apply (recorded_nonempty st), reachable_recorded, Hreach.
  - apply (flag_newGame (setMode m st)).
    apply (recorded_nonempty st), reachable_recorded, Hreach.
  - apply (flag_newGame (setDifficulty d st)).
    apply (recorded_nonempty st), reachable_recorded, Hreach.
Qed.

(** X4: in every reachable state the game-over flag says exactly that the
    board is terminal: it is set if and only if X has a line, O has a
    line, or no cell is empty.  So a running game always has an empty
    cell and no winner, and a finished one is never left running. *)
Theorem gameOver_iff_terminal (st : State) :
  reachable st ->
  gameOver st = isTerminal (board st).
Proof. exact (reachable_flag st). Qed.

Lemma gameOver_iff_terminal_witness :
  reachable topRowWon /\
  gameOver topRowWon = isTerminal (board topRowWon).
Proof.
  assert (H : reachable topRowWon)
    by (apply played_reachable, topRowWon_played).
  split; [exact H | exact (gameOver_iff_terminal topRowWon H)].
Defined.

(** ** The computer always has a move *)

Section ComputerMoves.

Open Scope Q_scope.

(** [Math.floor(Math.random() * n)] is an index below [n]. *)
Lemma floor_sample_lt (rnd : Q) (n : nat) :
  0 <= rnd -> rnd < 1 -> (0 < n)%nat ->
  (Z.to_nat (Qfloor (rnd * inject_Z (Z.of_nat n))) < n)%nat.
Proof.
  intros Hlo Hhi Hn.
  assert (HN : 0 < inject_Z (Z.of_nat n)).
  { change 0 with (inject_Z 0). rewrite <- Zlt_Qlt. lia. }
  assert (H0 : (0 <= Qfloor (rnd * inject_Z (Z.of_nat n)))%Z).
  { change 0%Z with (Qfloor 0). apply Qfloor_resp_le.
    apply Qmult_le_0_compat; [exact Hlo | apply Qlt_le_weak, HN]. }
  assert (H1 : (Qfloor (rnd * inject_Z (Z.of_nat n)) < Z.of_nat n)%Z).
  { rewrite Zlt_Qlt.
    apply Qle_lt_trans with (rnd * inject_Z (Z.of_nat n)); [apply Qfloor_le |].
    rewrite <- (Qmult_1_l (inject_Z (Z.of_nat n))) at 2.
    apply Qmult_lt_compat_r; assumption. }
  lia.
Qed.

Close Scope Q_scope.

End ComputerMoves.

(** X5: [getEasyMove] only proposes legal moves.  Whatever position of
    [emptyCells] is read, and so whatever the sample, an index it returns
    is the index of an empty cell of the board; and in a running game
    [makeMove] accepts that index for O: the cell receives the mark and
    the move is recorded. *)
Theorem easy_move_is_legal (st : State) :
  (forall k j,
      nth_error (emptyCellsOf (board st)) k = Some j ->
      nth_error (board st) j = Some Null /\ j < length (board st)) /\
  (forall rnd j,
      getEasyMove rnd st = Some j ->
      nth_error (board st) j = Some Null /\
      (gameOver st = false ->
       board (fst (makeMove j O st)) = store j (Mark O) (board st) /\
       moveHistory (fst (makeMove j O st))
       = moveHistory st ++ [mkEntry j O])).
Proof.
  assert (Hread : forall k j,
             nth_error (emptyCellsOf (board st)) k = Some j ->
             nth_error (board st) j = Some Null).
  { intros k j Hk. apply emptyCellsOf_spec. exact (nth_error_In _ _ Hk). }
  split.
  - intros k j Hk. split; [exact (Hread k j Hk) |].
    apply nth_error_Some. rewrite (Hread k j Hk). discriminate.
  - intros rnd j Hj. unfold getEasyMove in Hj.
    pose proof (Hread _ j Hj) as Hnull.
    split; [exact Hnull |].
    intro Hover.
    destruct (makeMove_history j O st) as [Hh Hb];
      [rewrite (nth_error_get _ _ _ Hnull); reflexivity | exact Hover |].
    split; assumption.
Qed.

Lemma easy_move_is_legal_witness :
  getEasyMove (1 # 2) midGame = Some 6 /\
  nth_error (board midGame) 6 = Some Null /\
  board (fst (makeMove 6 O midGame)) = store 6 (Mark O) (board midGame).
Proof.
  assert (Hj : getEasyMove (1 # 2) midGame = Some 6) by reflexivity.
  split; [exact Hj |].
  destruct (easy_move_is_legal midGame) as [_ H].
  destruct (H (1 # 2)%Q 6 Hj) as [Hnull Hacc].
  split; [exact Hnull | exact (proj1 (Hacc eq_refl))].
Defined.

(** On a board that is not terminal [getBestMove] returns the index of
    an empty cell. *)
Lemma getBestMove_running (st : State) :
  isTerminal (board st) = false ->
  exists j, getBestMove st = Some (Some j, st) /\
            nth_error (board st) j = Some Null.
Proof.
  intro Hrun. destruct (isTerminal_false _ Hrun) as (HX & HO & Hfull).
  assert (Hne : emptyCellsOf (board st) <> []).
  { intro H. apply (f_equal (@length _)) in H.
    rewrite emptyCellsOf_length in H. simpl in H.
    apply everyCell_countNull in H. congruence. }
  destruct (minimax_root (length (board st)) (board st) O NegInf PosInf
                         (countNull_le_length _) HX HO Hne)
    as (moves & k & m & _ & Hidx & _ & _ & Hnth & Hres).
  destruct (evaluated_index moves _ k m Hidx Hnth) as (c & Hc & Hck).
  exists c. split.
  - unfold getBestMove. rewrite Hres, Hc. destruct st; reflexivity.
  - apply emptyCellsOf_spec. exact (nth_error_In _ _ Hck).
Qed.

(** X6: while the game runs, the computer always finds a move.  In every
    reachable state whose game is not over, for every sample of
    [Math.random()] in [0, 1) and at either difficulty, [computerMove]
    plays O on a cell of the grid that is empty, and [makeMove] accepts
    it: the [undefined] index of a board without moves never arises. *)
Theorem computer_always_moves (st : State) (rnd : Q) :
  reachable st ->
  gameOver st = false ->
  (0 <= rnd)%Q -> (rnd < 1)%Q ->
  exists j,
    j < 9 /\
    nth_error (board st) j = Some Null /\
    computerMove rnd st = Some (makeMove j O st) /\
    board (fst (makeMove j O st)) = store j (Mark O) (board st).
Proof.
  intros Hreach Hover Hlo Hhi.
  pose proof (reachable_flag st Hreach) as Hflag. rewrite Hover in Hflag.
  symmetry in Hflag.
  destruct (isTerminal_false _ Hflag) as (_ & _ & Hfull).
  destruct (recorded_facts _ _ (reachable_recorded st Hreach))
    as (_ & _ & Hlen & _).
  assert (Hmove : exists j, nth_error (board st) j = Some Null /\
                            computerMove rnd st = Some (makeMove j O st)).
  { unfold computerMove. destruct (difficulty st).
    - assert (Hn : 0 < countNull (board st)).
      { destruct (countNull (board st)) eqn:Hc; [| lia].
        apply everyCell_countNull in Hc. congruence. }
      pose proof (floor_sample_lt rnd _ Hlo Hhi Hn) as Hk.
      unfold getEasyMove. rewrite emptyCellsOf_length.
      destruct (nth_error (emptyCellsOf (board st))
                  (Z.to_nat (Qfloor (rnd * inject_Z (Z.of_nat (countNull (board st)))))))
        as [j|] eqn:Hj.
      + exists j. split; [| reflexivity].
        apply emptyCellsOf_spec. exact (nth_error_In _ _ Hj).
      + apply nth_error_None in Hj. rewrite emptyCellsOf_length in Hj. lia.
    - destruct (getBestMove_running st Hflag) as (j & Hbest & Hnull).
      rewrite Hbest. exists j. split; [exact Hnull | reflexivity]. }
  destruct Hmove as (j & Hnull & Hcomp).
  exists j. split; [| split; [exact Hnull | split; [exact Hcomp |]]].
  - pose proof (nth_error_Some_lt _ _ _ Hnull). lia.
  - rewrite (makeMove_running st j O); [| rewrite (nth_error_get _ _ _ Hnull);
                                          reflexivity | exact Hover].
    cbv zeta.
    repeat match goal with
           | |- context [if ?c then _ else _] => destruct c
           end; reflexivity.
Qed.

Lemma computer_always_moves_witness :
  exists j,
    j < 9 /\
    nth_error (board undoneOnce) j = Some Null /\
    computerMove (1 # 2) undoneOnce = Some (makeMove j O undoneOnce) /\
    board (fst (makeMove j O undoneOnce)) = store j (Mark O) (board undoneOnce).
Proof.
  apply (computer_always_moves undoneOnce (1 # 2)%Q undoneOnce_reachable).
  - reflexivity.
  - vm_compute; discriminate.
  - vm_compute; reflexivity.
Defined.

(** ** Turns *)

Section Turns.

Lemma mover_succ (k : nat) : mover (S k) = opponent (mover k).
Proof.
  unfold mover. rewrite Nat.even_succ, <- Nat.negb_even.
  destruct (Nat.even k); reflexivity.
Qed.

Lemma mover_X (k : nat) : mover k = X -> Nat.even k = true.
Proof. unfold mover. destruct (Nat.even k); [reflexivity | discriminate]. Qed.

Lemma alternating_nil : alternating [].
Proof. intros [|k] e H; discriminate. Qed.

Lemma alternating_snoc (h : list Move) (e : Move) :
  alternating h -> player e = mover (length h) -> alternating (h ++ [e]).
Proof.
  intros Hh He k e' Hk.
  destruct (Nat.lt_ge_cases k (length h)) as [Hlt | Hge].
  - rewrite nth_error_app1 in Hk by exact Hlt. exact (Hh k e' Hk).
  - rewrite nth_error_app2 in Hk by exact Hge.
    destruct (k - length h) as [|d] eqn:Hd; simpl in Hk.
    + injection Hk as <-. replace k with (length h) by lia. exact He.
    + destruct d; discriminate.
Qed.

Lemma alternating_prefix (h t : list Move) :
  alternating (h ++ t) -> alternating h.
Proof.
  intros H k e Hk. apply H.
  rewrite nth_error_app1; [exact Hk |].
  apply nth_error_Some. congruence.
Qed.

Lemma alternating_last (h : list Move) (e : Move) :
  alternating (h ++ [e]) -> player e = mover (length h).
Proof.
  intro H. apply H. rewrite nth_error_app2, Nat.sub_diag by lia. reflexivity.
Qed.

Lemma playerAfter_mover (h : list Move) :
  alternating h -> playerAfter h = mover (length h).
Proof.
  intro Halt. destruct h as [|e0 h0]; [reflexivity |].
  destruct (@exists_last _ (e0 :: h0)) as (h' & e & Heq); [discriminate |].
  rewrite Heq in *. rewrite playerAfter_snoc, length_app, Nat.add_1_r.
  rewrite mover_succ, (alternating_last h' e Halt). reflexivity.
Qed.

(** What [makeMove] returns as its second component. *)
Lemma makeMove_pending (i : nat) (p : Player) (st : State) :
  (makeMove i p st = (st, false)) \/
  (truthy (get (board st) i) = false /\ gameOver st = false /\
   snd (makeMove i p st) = computerDue (fst (makeMove i p st))).
Proof.
  unfold makeMove.
  destruct (truthy (get (board st) i)); [left; reflexivity |].
  destruct (gameOver st); [left; reflexivity |].
  right. repeat split.
Qed.

(** A move by the player whose turn it is keeps the history
    alternating and passes the turn on. *)
Lemma alternating_makeMove (st : State) (i : nat) (p : Player) :
  alternating (moveHistory st) ->
  (gameOver st = false ->
   currentPlayer st = mover (length (moveHistory st))) ->
  p = currentPlayer st ->
  alternating (moveHistory (fst (makeMove i p st))) /\
  (gameOver (fst (makeMove i p st)) = false ->
   currentPlayer (fst (makeMove i p st))
   = mover (length (moveHistory (fst (makeMove i p st))))).
Proof.
  intros Halt Hcp Hp.
  destruct (truthy (get (board st) i)) eqn:Hcell;
    [unfold makeMove; rewrite Hcell; split; assumption |].
  destruct (gameOver st) eqn:Hover;
    [unfold makeMove; rewrite Hover, orb_true_r; simpl; split;
     [assumption | congruence] |].
  specialize (Hcp eq_refl).
  assert (Hnext : alternating (moveHistory st ++ [mkEntry i p])).
  { apply alternating_snoc; [exact Halt | simpl; congruence]. }
  rewrite (makeMove_running st i p Hcell Hover). cbv zeta.
  repeat match goal with
         | |- context [if ?c then _ else _] => destruct c
         end; fields; (split; [exact Hnext |]); try discriminate.
  intros _. rewrite length_app, Nat.add_1_r, mover_succ, Hcp. reflexivity.
Qed.

(** With no computer move due, a state that is in turn by its history is
    in turn altogether. *)
Lemma inTurn_when_settled (st : State) :
  alternating (moveHistory st) ->
  (gameOver st = false ->
   currentPlayer st = mover (length (moveHistory st))) ->
  computerDue st = false ->
  inTurn st.
Proof.
  intros Halt Hcp Hdue. repeat split; auto.
  intros Hmode Hover. specialize (Hcp Hover).
  unfold computerDue in Hdue. rewrite Hmode, Hover in Hdue. simpl in Hdue.
  destruct (currentPlayer st) eqn:Hc; [| discriminate].
  apply mover_X. congruence.
Qed.

Lemma makeMove_mode (i : nat) (p : Player) (st : State) :
  mode (fst (makeMove i p st)) = mode st.
Proof.
  unfold makeMove.
  destruct (truthy (get (board st) i) || gameOver st); [reflexivity |].
  cbn [fst].
  repeat match goal with
         | |- context [if ?c then _ else _] => destruct c
         end; reflexivity.
Qed.

(** The computer's move, when one is due, settles the turn. *)
Lemma settle_inTurn (rnd : Q) (fuel : nat) :
  forall st pending st',
    alternating (moveHistory st) ->
    (gameOver st = false ->
     currentPlayer st = mover (length (moveHistory st))) ->
    pending = computerDue st ->
    settle fuel rnd st pending = Some st' ->
    inTurn st'.
Proof.
  induction fuel as [|fuel IH]; intros st pending st' Halt Hcp Hpend Hset.
  - destruct pending; [discriminate |]. injection Hset as <-.
    apply inTurn_when_settled; auto.
  - destruct pending; simpl in Hset.
    + destruct (computerMove rnd st) as [[st2 pending2]|] eqn:Hmove;
        [| discriminate].
      destruct (computerMove_makeMove rnd st _ Hmove) as (j & Hnull & Heq).
      symmetry in Hpend. unfold computerDue in Hpend.
      apply andb_true_iff in Hpend. destruct Hpend as [Hpend Hover].
      apply andb_true_iff in Hpend. destruct Hpend as [_ HO].
      apply negb_true_iff in Hover.
      assert (HcpO : O = currentPlayer st)
        by (destruct (currentPlayer st); [discriminate | reflexivity]).
      destruct (alternating_makeMove st j O Halt Hcp HcpO) as [Halt2 Hcp2].
      assert (Hst2 : st2 = fst (makeMove j O st)) by (rewrite <- Heq; reflexivity).
      assert (Hp2 : pending2 = snd (makeMove j O st))
        by (rewrite <- Heq; reflexivity).
      destruct (makeMove_pending j O st) as [Hrej | (_ & _ & Hdue)].
      * exfalso. apply (makeMove_not_rejected j O st); auto.
        -- rewrite (nth_error_get _ _ _ Hnull). reflexivity.
        -- rewrite Hrej. reflexivity.
      * rewrite <- Hst2 in *. rewrite <- Hp2 in Hdue.
        exact (IH st2 pending2 st' Halt2 Hcp2 Hdue Hset).
    + injection Hset as <-. apply inTurn_when_settled; auto.
Qed.

Lemma inTurn_turn (rnd : Q) (i : nat) (st st' : State) :
  inTurn st -> turn rnd i st = Some st' -> inTurn st'.
Proof.
  intros (Halt & Hcp & Heven) Hturn. unfold turn, clickCell in Hturn.
  destruct (alternating_makeMove st i (currentPlayer st) Halt Hcp eq_refl)
    as [Halt1 Hcp1].
  destruct (makeMove_pending i (currentPlayer st) st) as [Hrej | (_ & _ & Hdue)].
  - rewrite Hrej in Hturn. simpl in Hturn. injection Hturn as <-.
    repeat split; assumption.
  - destruct (makeMove i (currentPlayer st) st) as [st1 pending] eqn:Hmove.
    cbn [fst snd] in *.
    exact (settle_inTurn rnd _ st1 pending st' Halt1 Hcp1 Hdue Hturn).
Qed.

Lemma inTurn_undoMove (st : State) : inTurn st -> inTurn (undoMove st).
Proof.
  intros Hin.
  destruct (gameOver st) eqn:Hover.
  { rewrite (undoMove_noop st (or_intror Hover)). exact Hin. }
  destruct (moveHistory st) as [|e0 h0] eqn:Hhist.
  { rewrite (undoMove_noop st (or_introl Hhist)). exact Hin. }
  destruct (@exists_last _ (e0 :: h0)) as (h & m & Heq); [discriminate |].
  destruct Hin as (Halt & _ & Heven).
  rewrite Hhist, Heq in Halt. rewrite Hhist, Heq in Heven.
  rewrite Heq in Hhist. clear Heq e0 h0.
  destruct (mode st) eqn:Hmode.
  - rewrite (undoMove_one st h m Hover Hhist (or_introl Hmode)).
    pose proof (alternating_prefix _ _ Halt) as Hh. clear Heven.
    repeat split; fields; auto.
    + intros _. apply playerAfter_mover, Hh.
    + congruence.
  - specialize (Heven eq_refl Hover).
    destruct h as [|e1 h1]; [discriminate |].
    destruct (@exists_last _ (e1 :: h1)) as (h' & m' & Heq); [discriminate |].
    rewrite Heq in *. clear Heq e1 h1.
    rewrite (undoMove_two st h' m' m Hover Hhist Hmode).
    pose proof (alternating_prefix _ _ (alternating_prefix _ _ Halt)) as Hh.
    repeat split; fields; auto.
    + intros _. apply playerAfter_mover, Hh.
    + intros _ _. rewrite !length_app in Heven. simpl in Heven.
      rewrite Nat.add_1_r in Heven. rewrite Nat.add_1_r in Heven.
      exact Heven.
Qed.

Lemma inTurn_newGame (st : State) : inTurn (newGame st).
Proof.
  repeat split; simpl; auto. apply alternating_nil.
Qed.

Lemma session_inTurn (st : State) : session st -> inTurn st.
Proof.
  induction 1 as [| st rnd i st' Hs IH Hi Hturn | st Hs IH | st Hs IH
                  | st Hs IH | st m Hs IH | st d Hs IH].
  - repeat split; simpl; auto. apply alternating_nil.
  - exact (inTurn_turn rnd i st st' IH Hturn).
  - apply inTurn_undoMove, IH.
  - apply inTurn_newGame.
  - apply (inTurn_newGame (setScores (mkScores 0 0 0) st)).
  - apply (inTurn_newGame (setMode m st)).
  - apply (inTurn_newGame (setDifficulty d st)).
Qed.

Lemma settle_reachable (rnd : Q) (fuel : nat) :
  forall st pending st',
    reachable st -> settle fuel rnd st pending = Some st' -> reachable st'.
Proof.
  induction fuel as [|fuel IH]; intros st [|] st' Hreach Hset; simpl in Hset;
    try discriminate; try (injection Hset as <-; exact Hreach).
  destruct (computerMove rnd st) as [[st2 pending2]|] eqn:Hmove;
    [| discriminate].
  apply (IH st2 pending2 st'); [| exact Hset].
  exact (reach_computerMove st rnd st2 pending2 Hreach Hmove).
Qed.

(** A session without overlap only visits reachable states. *)
Lemma session_reachable (st : State) : session st -> reachable st.
Proof.
  induction 1 as [| st rnd i st' Hs IH Hi Hturn | st Hs IH | st Hs IH
                  | st Hs IH | st m Hs IH | st d Hs IH];
    try (constructor; assumption).
  unfold turn, clickCell in Hturn.
  pose proof (reach_makeMove st i (currentPlayer st) IH Hi) as Hclick.
  destruct (makeMove i (currentPlayer st) st) as [st1 pending].
  exact (settle_reachable rnd _ st1 pending st' Hclick Hturn).
Qed.

Lemma countPlayer_store (i : nat) (p q : Player) (b : Board) :
  nth_error b i = Some Null ->
  countPlayer q (store i (Mark p) b)
  = countPlayer q b + (if player_eqb p q then 1 else 0).
Proof.
  unfold countPlayer. revert b.
  induction i as [|i IH]; intros [|c t] H; simpl in *; try discriminate.
  - injection H as ->. simpl. destruct (player_eqb p q); simpl; lia.
  - destruct (cell_eqb c (Mark q)); simpl; rewrite (IH t H); lia.
Qed.

(** On a recorded board whose history alternates, X has as many marks
    as O after an even number of moves and one more after an odd
    number. *)
Lemma recorded_counts (h : list Move) (b : Board) :
  recorded h b -> alternating h ->
  countPlayer X b
  = countPlayer O b + (if Nat.even (length h) then 0 else 1).
Proof.
  induction 1 as [|h b m Hrec IH Hcell]; intro Halt; [reflexivity |].
  specialize (IH (alternating_prefix _ _ Halt)).
  pose proof (alternating_last h m Halt) as Hm.
  rewrite !countPlayer_store by exact Hcell.
  rewrite length_app, Nat.add_1_r, Nat.even_succ, <- Nat.negb_even.
  unfold mover in Hm. rewrite Hm.
  destruct (Nat.even (length h)); simpl in *; lia.
Qed.

End Turns.

(** X7: in a session without overlap the marks respect the turns.  The
    history lists X's and O's moves in turn, X first; X has as many
    marks on the board as O or exactly one more; while the game runs the
    player to move is X when the counts are equal and O otherwise; and
    against the computer a running game always waits for X. *)
Theorem marks_follow_turns (st : State) :
  session st ->
  alternating (moveHistory st) /\
  (countPlayer X (board st) = countPlayer O (board st) \/
   countPlayer X (board st) = S (countPlayer O (board st))) /\
  (gameOver st = false ->
   currentPlayer st
   = if countPlayer X (board st) =? countPlayer O (board st) then X else O) /\
  (mode st = vsComputer -> gameOver st = false -> currentPlayer st = X).
Proof.
  intro Hs.
  destruct (session_inTurn st Hs) as (Halt & Hcp & Heven).
  pose proof (recorded_counts _ _
                (reachable_recorded st (session_reachable st Hs)) Halt)
    as Hcount.
  split; [exact Halt |]. split; [| split].
  - clear Hcp Heven. destruct (Nat.even (length (moveHistory st))); lia.
  - intro Hover. rewrite (Hcp Hover). unfold mover.
    destruct (Nat.even (length (moveHistory st))).
    + rewrite Hcount, Nat.add_0_r, Nat.eqb_refl. reflexivity.
    + destruct (Nat.eqb_spec (countPlayer X (board st))
                             (countPlayer O (board st))); [lia | reflexivity].
  - intros Hmode Hover. rewrite (Hcp Hover). unfold mover.
    rewrite (Heven Hmode Hover). reflexivity.
Qed.

Lemma answered_session : session answered.
Proof.
  apply (session_turn versusUnbeatable 0%Q 4).
  - apply session_changeDifficulty, session_changeMode, session_initial.
  - lia.
  - vm_compute. reflexivity.
Qed.

Lemma marks_follow_turns_witness :
  session answered /\
  (countPlayer X (board answered) = countPlayer O (board answered) \/
   countPlayer X (board answered) = S (countPlayer O (board answered))) /\
  (mode answered = vsComputer -> gameOver answered = false ->
   currentPlayer answered = X).
Proof.
  split; [exact answered_session |].
  destruct (marks_follow_turns answered answered_session) as (_ & H1 & _ & H3).
  split; assumption.
Defined.

(** ** Undoing a turn *)

Section UndoTurn.

(** An accepted move after which the game goes on. *)
Lemma makeMove_continues (st : State) (i : nat) (p : Player) :
  truthy (get (board st) i) = false ->
  gameOver st = false ->
  gameOver (fst (makeMove i p st)) = false ->
  makeMove i p st =
  (setCurrentPlayer (opponent (currentPlayer st))
     (setMoveHistory (moveHistory st ++ [mkEntry i p])
        (setBoard (store i (Mark p) (board st)) st)),
   mode_eqb (mode st) vsComputer
   && player_eqb (opponent (currentPlayer st)) O).
Proof.
  intros Hcell Hover Hgoes.
  rewrite (makeMove_running st i p Hcell Hover) in Hgoes. cbv zeta in Hgoes.
  destruct (checkWinOnBoard (store i (Mark p) (board st)) p) eqn:Hwin;
    [discriminate |].
  destruct (everyCell (store i (Mark p) (board st))) eqn:Hfull;
    [discriminate |].
  unfold makeMove. rewrite Hcell, Hover. cbn [orb].
  unfold checkWin. fields.
  change (existsb (fun combination =>
                     forallb (holds (store i (Mark p) (board st)) p) combination)
                  winPatterns)
    with (checkWinOnBoard (store i (Mark p) (board st)) p).
  rewrite Hwin, Hfull. fields. rewrite Hover. cbn [negb].
  rewrite andb_true_r. reflexivity.
Qed.

Lemma settle_false (fuel : nat) (rnd : Q) (st : State) :
  settle fuel rnd st false = Some st.
Proof. destruct fuel; reflexivity. Qed.

Lemma settle_true (fuel : nat) (rnd : Q) (st : State) :
  settle (S fuel) rnd st true =
  match computerMove rnd st with
  | Some (st', pending') => settle fuel rnd st' pending'
  | None => None
  end.
Proof. reflexivity. Qed.

Lemma session_cell_null (st : State) (i : nat) :
  session st -> i < 9 -> truthy (get (board st) i) = false ->
  nth_error (board st) i = Some Null.
Proof.
  intros Hs Hi Hcell.
  destruct (recorded_facts _ _
              (reachable_recorded st (session_reachable st Hs)))
    as (_ & _ & Hlen & Hholes).
  exact (falsy_is_null _ _ Hlen Hholes Hi Hcell).
Qed.

End UndoTurn.

(** X8: undo takes back a whole turn.  In a session without overlap, when
    a click on a cell of the grid is accepted and the game is still
    running once the turn is complete (after the computer's answer, when
    playing against the computer), [undoMove] gives back exactly the
    state before the click: board, history, player to move, scores and
    configuration. *)
Theorem undo_reverts_turn (st st' : State) (rnd : Q) (i : nat) :
  session st ->
  i < 9 ->
  legalClick i st = true ->
  turn rnd i st = Some st' ->
  gameOver st' = false ->
  undoMove st' = st.
Proof.
  intros Hs Hi Hlegal Hturn Hgoes.
  unfold legalClick in Hlegal. apply negb_true_iff, orb_false_iff in Hlegal.
  destruct Hlegal as [Hcell Hover].
  pose proof (session_cell_null st i Hs Hi Hcell) as Hnull.
  destruct (session_inTurn st Hs) as (Halt & Hcp & Heven).
  specialize (Hcp Hover).
  pose proof (playerAfter_mover _ Halt) as Hafter.
  unfold turn, clickCell in Hturn.
  destruct (gameOver (fst (makeMove i (currentPlayer st) st))) eqn:Hover1.
  { (* the click ended the game: nothing is due, and [st'] is over *)
    destruct (makeMove_pending i (currentPlayer st) st)
      as [Hrej | (_ & _ & Hdue)].
    - rewrite Hrej in Hover1. simpl in Hover1. congruence.
    - destruct (makeMove i (currentPlayer st) st) as [st1 pending].
      cbn [fst snd] in *. unfold computerDue in Hdue.
      rewrite Hover1, andb_false_r in Hdue. subst pending.
      simpl in Hturn. injection Hturn as <-. congruence. }
  rewrite (makeMove_continues st i _ Hcell Hover Hover1) in Hturn.
  cbv beta iota in Hturn.
  set (st1 := setCurrentPlayer (opponent (currentPlayer st))
                (setMoveHistory (moveHistory st ++ [mkEntry i (currentPlayer st)])
                   (setBoard (store i (Mark (currentPlayer st)) (board st)) st)))
    in *.
  assert (Hrun1 : gameOver st1 = false) by exact Hover.
  assert (Hhist1 : moveHistory st1
                   = moveHistory st ++ [mkEntry i (currentPlayer st)])
    by reflexivity.
  assert (Hboard1 : board st1 = store i (Mark (currentPlayer st)) (board st))
    by reflexivity.
  destruct (mode st) eqn:Hmode.
  - (* two players: one move to take back *)
    cbn [mode_eqb andb] in Hturn. rewrite settle_false in Hturn.
    injection Hturn as <-.
    rewrite (undoMove_one st1 (moveHistory st)
               (mkEntry i (currentPlayer st)) Hrun1 Hhist1
               (or_introl Hmode)).
    rewrite Hboard1. cbn [index].
    rewrite (store_retract _ _ _ _ Hnull), Hafter, <- Hcp.
    subst st1. destruct st; reflexivity.
  - (* against the computer: X's move and O's answer *)
    specialize (Heven eq_refl Hover).
    assert (HX : currentPlayer st = X)
      by (rewrite Hcp; unfold mover; rewrite Heven; reflexivity).
    rewrite HX in Hturn. cbn [mode_eqb andb opponent player_eqb] in Hturn.
    rewrite settle_true in Hturn.
    destruct (computerMove rnd st1) as [[st2 pending2]|] eqn:Hmove;
      [| discriminate].
    destruct (computerMove_makeMove rnd st1 _ Hmove) as (j & Hj & Heq).
    assert (Hcell1 : truthy (get (board st1) j) = false)
      by (rewrite (nth_error_get _ _ _ Hj); reflexivity).
    destruct (gameOver (fst (makeMove j O st1))) eqn:Hover2.
    { destruct (makeMove_pending j O st1) as [Hrej | (_ & _ & Hdue)].
      - rewrite Hrej in Hover2. simpl in Hover2. congruence.
      - rewrite <- Heq in Hdue, Hover2. cbn [fst snd] in *.
        unfold computerDue in Hdue. rewrite Hover2, andb_false_r in Hdue.
        subst pending2. rewrite settle_false in Hturn.
        injection Hturn as <-. congruence. }
    rewrite (makeMove_continues st1 j O Hcell1 Hrun1 Hover2) in Heq.
    injection Heq as Hst2 Hp2.
    assert (Hmode1 : mode st1 = vsComputer) by exact Hmode.
    rewrite Hmode, HX in Hp2. cbn [mode_eqb andb opponent player_eqb] in Hp2.
    subst pending2. rewrite settle_false in Hturn. injection Hturn as <-.
    assert (Hover' : gameOver st2 = false) by (subst st2; exact Hrun1).
    assert (Hhist2 : moveHistory st2
                     = (moveHistory st ++ [mkEntry i (currentPlayer st)])
                         ++ [mkEntry j O])
      by (subst st2; reflexivity).
    assert (Hmode2 : mode st2 = vsComputer) by (subst st2; exact Hmode1).
    rewrite (undoMove_two st2 (moveHistory st)
               (mkEntry i (currentPlayer st)) (mkEntry j O)
               Hover' Hhist2 Hmode2).
    assert (Hboard2 : board st2 = store j (Mark O) (board st1))
      by (subst st2; reflexivity).
    rewrite Hboard2. cbn [index].
    rewrite (store_retract _ _ _ _ Hj), Hboard1.
    rewrite (store_retract _ _ _ _ Hnull), Hafter, <- Hcp.
    subst st2 st1. destruct st; reflexivity.
Qed.

Lemma undo_reverts_turn_witness :
  session versusUnbeatable /\
  legalClick 4 versusUnbeatable = true /\
  turn 0%Q 4 versusUnbeatable = Some answered /\
  gameOver answered = false /\
  undoMove answered = versusUnbeatable.
Proof.
  assert (Hs : session versusUnbeatable)
    by (apply session_changeDifficulty, session_changeMode, session_initial).
  assert (Hturn : turn 0%Q 4 versusUnbeatable = Some answered)
    by (vm_compute; reflexivity).
  assert (Hgoes : gameOver answered = false) by (vm_compute; reflexivity).
  split; [exact Hs |]. split; [reflexivity |].
  split; [exact Hturn |]. split; [exact Hgoes |].
  apply (undo_reverts_turn versusUnbeatable answered 0%Q 4 Hs);
    [lia | reflexivity | exact Hturn | exact Hgoes].
Defined.

(** ** The page and the state *)

Section Page.

Import View.

Lemma renderCells_indices (b : Board) :
  Forall (fun c => c <> Hole) b ->
  forall k, map datasetIndex (renderCells k b) = seq k (length b).
Proof.
  induction 1 as [|c t Hc _ IH]; intro k; [reflexivity |].
  destruct c; simpl; [congruence | |]; rewrite IH; reflexivity.
Qed.

Lemma renderCells_nth (b : Board) :
  Forall (fun c => c <> Hole) b ->
  forall k i cv,
    nth_error (renderCells k b) i = Some cv ->
    datasetIndex cv = k + i /\
    (get b i = Null \/ exists p, get b i = Mark p) /\
    (textContent cv = String.EmptyString <-> get b i = Null) /\
    (forall p, textContent cv = markText p <-> get b i = Mark p).
Proof.
  induction 1 as [|c t Hc _ IH]; intros k i cv Hcv;
    [destruct i; discriminate |].
  destruct i as [|i].
  - destruct c as [| |p]; [congruence | |]; simpl in Hcv;
      injection Hcv as <-; unfold get; simpl; rewrite Nat.add_0_r;
      (split; [reflexivity |]).
    + split; [left; reflexivity |].
      split; [split; reflexivity |].
      intro p. split; [destruct p; discriminate | discriminate].
    + split; [right; exists p; reflexivity |].
      split; [split; [destruct p; discriminate | discriminate] |].
      intro q. split.
      * destruct p, q; simpl; intro H; try reflexivity; discriminate.
      * intro H. injection H as <-. reflexivity.
  - assert (Htail : nth_error (renderCells (S k) t) i = Some cv)
      by (destruct c; [congruence | exact Hcv | exact Hcv]).
    destruct (IH (S k) i cv Htail) as (Hidx & Hcell & Hempty & Hmark).
    unfold get in *. simpl. rewrite Hidx.
    repeat split; try apply Hempty; try apply Hmark; auto; lia.
Qed.

(** An undo that has something to pop changes the state. *)
Lemma undoMove_changes (st : State) :
  gameOver st = false -> moveHistory st <> [] -> undoMove st <> st.
Proof.
  intros Hover Hne Hfix.
  destruct (moveHistory st) as [|e0 h0] eqn:Hhist; [congruence |].
  destruct (@exists_last _ (e0 :: h0)) as (h & m & Heq); [discriminate |].
  rewrite Heq in Hhist. clear Heq Hne.
  assert (Hshort : length (moveHistory (undoMove st)) < length (moveHistory st)).
  { rewrite Hhist, length_app. simpl.
    destruct (mode st) eqn:Hmode.
    - rewrite (undoMove_one st h m Hover Hhist (or_introl Hmode)). simpl. lia.
    - destruct h as [|e1 h1].
      + rewrite (undoMove_one st [] m Hover Hhist (or_intror eq_refl)).
        simpl. lia.
      + destruct (@exists_last _ (e1 :: h1)) as (h' & m' & Heq);
          [discriminate |].
        rewrite Heq in Hhist.
        rewrite (undoMove_two st h' m' m Hover Hhist Hmode).
        rewrite Heq, length_app. simpl. lia. }
  rewrite Hfix in Hshort. lia.
Qed.

Lemma click_accepted_iff (st : State) (i : nat) :
  fst (clickCell i st) <> st <->
  truthy (get (board st) i) = false /\ gameOver st = false.
Proof.
  unfold clickCell. split.
  - intro Hneq.
    destruct (truthy (get (board st) i)) eqn:Hcell.
    + exfalso. apply Hneq. unfold makeMove. rewrite Hcell. reflexivity.
    + destruct (gameOver st) eqn:Hover; [| auto].
      exfalso. apply Hneq. unfold makeMove. rewrite Hover, orb_true_r.
      reflexivity.
  - intros [Hcell Hover]. apply makeMove_not_rejected; assumption.
Qed.

End Page.

(** X9: what [render] shows agrees with what the engine accepts.  In every
    reachable state the page has nine cells whose [dataset.index] run
    from 0 to 8 in order, each showing the mark of its board cell or no
    text when that cell is empty; a click on a cell changes the state
    exactly when the cell shows no text and the game is running; the undo
    button is disabled exactly when [undoMove] would change nothing. *)
Theorem page_matches_state (st : State) :
  reachable st ->
  map View.datasetIndex (View.cells (View.render st)) = seq 0 9 /\
  (forall i cv,
      nth_error (View.cells (View.render st)) i = Some cv ->
      View.datasetIndex cv = i /\
      (View.textContent cv = String.EmptyString <-> get (board st) i = Null) /\
      (forall p, View.textContent cv = View.markText p
                 <-> get (board st) i = Mark p) /\
      (fst (clickCell (View.datasetIndex cv) st) <> st <->
       View.textContent cv = String.EmptyString /\ gameOver st = false)) /\
  (View.undoDisabled (View.render st) = true <-> undoMove st = st).
Proof.
  intro Hreach.
  destruct (recorded_facts _ _ (reachable_recorded st Hreach))
    as (_ & _ & Hlen & Hholes).
  split; [| split].
  - unfold View.render. cbn [View.cells].
    rewrite (renderCells_indices _ Hholes 0), Hlen. reflexivity.
  - intros i cv Hcv. unfold View.render in Hcv. cbn [View.cells] in Hcv.
    destruct (renderCells_nth _ Hholes 0 i cv Hcv)
      as (Hidx & Hcell & Hempty & Hmark).
    simpl in Hidx.
    split; [exact Hidx |]. split; [exact Hempty |]. split; [exact Hmark |].
    rewrite Hidx. split.
    + intro Hacc. apply click_accepted_iff in Hacc.
      destruct Hacc as [Hfalsy Hover]. split; [| exact Hover].
      destruct Hcell as [Hn | [p Hp]]; [apply Hempty; exact Hn |].
      rewrite Hp in Hfalsy. discriminate.
    + intros [Htext Hover]. apply click_accepted_iff.
      split; [| exact Hover]. apply Hempty in Htext. rewrite Htext.
      reflexivity.
  - unfold View.render. cbn [View.undoDisabled]. split.
    + intro H. apply undoMove_noop. apply orb_true_iff in H.
      destruct H as [H | H]; [left | right; exact H].
      apply Nat.eqb_eq in H. destruct (moveHistory st); [reflexivity | discriminate].
    + intro Hfix.
      destruct (gameOver st) eqn:Hover; [apply orb_true_r |].
      destruct (moveHistory st) as [|e h] eqn:Hhist; [reflexivity |].
      exfalso. apply (undoMove_changes st Hover); [congruence | exact Hfix].
Qed.

Lemma page_matches_state_witness :
  reachable undoneOnce /\
  map View.datasetIndex (View.cells (View.render undoneOnce)) = seq 0 9 /\
  (View.undoDisabled (View.render undoneOnce) = true
   <-> undoMove undoneOnce = undoneOnce).
Proof.
  split; [exact undoneOnce_reachable |].
  destruct (page_matches_state undoneOnce undoneOnce_reachable)
    as (H1 & _ & H3).
  split; assumption.
Defined.

(** ** The table of winning lines *)

Section Geometry.

Lemma holds_true (b : Board) (p : Player) (i : nat) :
  holds b p i = true <-> get b i = Mark p.
Proof.
  unfold holds. split.
  - apply cell_eqb_eq.
  - intros ->. destruct p; reflexivity.
Qed.

Lemma below_three (P : nat -> Prop) :
  (forall k, k < 3 -> P k) <-> P 0 /\ P 1 /\ P 2.
Proof.
  split.
  - intro H. repeat split; apply H; lia.
  - intros (H0 & H1 & H2) k Hk.
    destruct k as [|[|[|k]]]; [assumption | assumption | assumption | lia].
Qed.

End Geometry.

(** X10: [winPatterns] lists exactly the lines of the 3x3 grid laid out
    row by row (cell [3 * r + c] is row [r], column [c]): the win check
    succeeds for a player exactly when that player holds a whole row, a
    whole column, the diagonal 0-4-8 or the diagonal 2-4-6. *)
Theorem win_check_is_three_in_a_row (b : Board) (p : Player) :
  checkWinOnBoard b p = true <->
  (exists r, r < 3 /\ forall c, c < 3 -> get b (3 * r + c) = Mark p) \/
  (exists c, c < 3 /\ forall r, r < 3 -> get b (3 * r + c) = Mark p) \/
  (forall k, k < 3 -> get b (4 * k) = Mark p) \/
  (forall k, k < 3 -> get b (2 * k + 2) = Mark p).
Proof.
  unfold checkWinOnBoard, winPatterns.
  cbn [existsb forallb].
  rewrite !orb_true_iff, !andb_true_iff, !holds_true.
  rewrite !below_three. cbn [Nat.mul Nat.add].
  split.
  - intros [H | [H | [H | [H | [H | [H | [H | [H | H]]]]]]]];
      try discriminate.
    + left. exists 0. split; [lia |]. apply below_three. tauto.
    + left. exists 1. split; [lia |]. apply below_three. tauto.
    + left. exists 2. split; [lia |]. apply below_three. tauto.
    + right; left. exists 0. split; [lia |]. apply below_three. tauto.
    + right; left. exists 1. split; [lia |]. apply below_three. tauto.
    + right; left. exists 2. split; [lia |]. apply below_three. tauto.
    + right; right; left. tauto.
    + right; right; right. tauto.
  - intros [(r & Hr & H) | [(c & Hc & H) | [H | H]]].
    + apply below_three in H.
      destruct r as [|[|[|r]]]; [| | | lia]; simpl in H; tauto.
    + apply below_three in H.
      destruct c as [|[|[|c]]]; [| | | lia]; simpl in H; tauto.
    + tauto.
    + tauto.
Qed.

(** ** What a move never does *)



Lemma win_check_is_three_in_a_row_witness :
  (exists r, r < 3 /\
             forall c, c < 3 -> get (board topRowWon) (3 * r + c) = Mark X) \/
  (exists c, c < 3 /\
             forall r, r < 3 -> get (board topRowWon) (3 * r + c) = Mark X) \/
  (forall k, k < 3 -> get (board topRowWon) (4 * k) = Mark X) \/
  (forall k, k < 3 -> get (board topRowWon) (2 * k + 2) = Mark X).
Proof.
  apply (win_check_is_three_in_a_row (board topRowWon) X). reflexivity.
Defined.

(** ** The popup *)

(** X12: the popup tells the truth.  In every reachable state, when
    [makeMove] shows a text through [endGame] the game is over and the
    text is right: "X Wins!" or "O Wins!" names the mover, who has a
    line while the opponent has none, and "It's a Draw!" appears only on
    a full board on which neither player has a line; when no text is
    shown the game-over flag is what it was. *)
Theorem popup_tells_the_truth (st : State) (i : nat) (p : Player) :
  reachable st ->
  let st' := fst (makeMove i p st) in
  (forall msg,
      View.endGameMessage i p st = Some msg ->
      gameOver st' = true /\
      ((msg = View.winsMessage p /\
        checkWinOnBoard (board st') p = true /\
        checkWinOnBoard (board st') (opponent p) = false) \/
       (msg = View.drawMessage /\
        checkWinOnBoard (board st') X = false /\
        checkWinOnBoard (board st') O = false /\
        everyCell (board st') = true))) /\
  (View.endGameMessage i p st = None -> gameOver st' = gameOver st).
Proof.
  intros Hreach st'. subst st'.
  unfold View.endGameMessage.
  destruct (truthy (get (board st) i)) eqn:Hcell.
  { split; [discriminate |]. intros _. unfold makeMove. rewrite Hcell.
    reflexivity. }
  destruct (gameOver st) eqn:Hover.
  { split; [discriminate |]. intros _. unfold makeMove.
    rewrite Hover, orb_true_r. exact Hover. }
  pose proof (reachable_flag st Hreach) as Hflag. rewrite Hover in Hflag.
  symmetry in Hflag. destruct (isTerminal_false _ Hflag) as (HX & HO & _).
  assert (Hopp : checkWinOnBoard (store i (Mark p) (board st)) (opponent p)
                 = false).
  { apply checkWin_store_false; [destruct p; discriminate |].
    destruct p; assumption. }
  rewrite (makeMove_running st i p Hcell Hover).
  cbn [orb]. cbv zeta. rewrite checkWin_onBoard. fields.
  destruct (checkWinOnBoard (store i (Mark p) (board st)) p) eqn:Hwin;
    [| destruct (everyCell (store i (Mark p) (board st))) eqn:Hfull]; fields.
  - split; [| discriminate].
    intros msg Hmsg. injection Hmsg as <-. split; [reflexivity |].
    left. repeat split; assumption.
  - split; [| discriminate].
    intros msg Hmsg. injection Hmsg as <-. split; [reflexivity |].
    right. split; [reflexivity |].
    destruct p; simpl in Hopp; repeat split; assumption.
  - split; [discriminate |]. intros _. exact Hover.
Qed.

Lemma popup_tells_the_truth_witness :
  View.endGameMessage 8 X lastCell = Some (View.winsMessage X) /\
  gameOver (fst (makeMove 8 X lastCell)) = true.
Proof.
  split; [reflexivity |].
  assert (Hreach : reachable lastCell).
  { change lastCell with
      (fst (makeMove 6 O (fst (makeMove 7 X (fst (makeMove 5 O
        (fst (makeMove 4 X (fst (makeMove 3 O (fst (makeMove 2 X
          (fst (makeMove 1 O (fst (makeMove 0 X initial)))))))))))))))).
    repeat (apply reach_makeMove; [| lia]). apply reach_initial. }
  destruct (popup_tells_the_truth lastCell 8 X Hreach) as [H _].
  exact (proj1 (H (View.winsMessage X) eq_refl)).
Defined.
